(** * Termux-Agent: the perception-action loop of [src/index.js]

    A shallow embedding of [extractUiElements], [getUiTree], [getContext]
    and [runAgent], with the JavaScript string primitives they rely on.

    Conventions of the model.
    - A JavaScript string is the list of the bytes of its UTF-8 form
      ([str]), one byte for each ASCII character.  [trim] and [\s] know the
      ASCII white space characters and [toUpperCase] maps the ASCII
      letters.  The only comparison the source makes after [toUpperCase]
      is against ['DONE'], and no character outside ASCII has D, O, N or E
      as its upper case.  The one character outside ASCII that the source
      itself holds is U+E001, four times in the bounds pattern of
      [traverse]; it is the three bytes EE 80 81 ([mark]).
    - A JavaScript number is a double.  The numbers of the source are
      integers read from digits, their sums, differences, halves and
      products: [JsNum] holds a double whose value is an integer, an
      infinity or [NaN], and [toDouble] is the rounding that every
      operation ends with.
    - [console.log] has no influence on control flow and is left out; every
      other effect (child processes, the file [./ui.xml], the completion
      call, the prompt, timers) is an explicit call to the environment. *)

From Stdlib Require Import List Ascii String ZArith Lia Bool Arith.
From Stdlib Require Import DecimalString.
Import ListNotations.

Set Implicit Arguments.

(** ** JavaScript strings *)

Definition str := list ascii.

Definition lit (s : string) : str := list_ascii_of_string s.

(** The double quote character, for the string literals that contain it. *)
Definition dquote : ascii := ascii_of_nat 34.

Fixpoint str_eqb (a b : str) : bool :=
  match a, b with
  | [], [] => true
  | c :: a', d :: b' => Ascii.eqb c d && str_eqb a' b'
  | _, _ => false
  end.

(** [WhiteSpace] and [LineTerminator] of ECMAScript, ASCII part:
    TAB, LF, VT, FF, CR and SP. *)
Definition isWhite (c : ascii) : bool :=
  match nat_of_ascii c with
  | 9 | 10 | 11 | 12 | 13 | 32 => true
  | _ => false
  end.

(** [\d] of a JavaScript regular expression: the ten ASCII digits. *)
Definition isDigit (c : ascii) : bool :=
  (48 <=? nat_of_ascii c) && (nat_of_ascii c <=? 57).

Fixpoint dropWhile (p : ascii -> bool) (s : str) : str :=
  match s with
  | [] => []
  | c :: s' => if p c then dropWhile p s' else s
  end.

Fixpoint takeWhile (p : ascii -> bool) (s : str) : str :=
  match s with
  | [] => []
  | c :: s' => if p c then c :: takeWhile p s' else []
  end.

(** [String.prototype.trim]. *)
Definition trimStart (s : str) : str := dropWhile isWhite s.
Definition trimEnd (s : str) : str := rev (dropWhile isWhite (rev s)).
Definition trim (s : str) : str := trimEnd (trimStart s).

Definition upperChar (c : ascii) : ascii :=
  let n := nat_of_ascii c in
  if (97 <=? n) && (n <=? 122) then ascii_of_nat (n - 32) else c.

(** [String.prototype.toUpperCase]. *)
Definition toUpperCase (s : str) : str := map upperChar s.

(** [s.startsWith(p)]. *)
Fixpoint startsWith (s p : str) : bool :=
  match p, s with
  | [], _ => true
  | _ :: _, [] => false
  | a :: p', b :: s' => if Ascii.eqb a b then startsWith s' p' else false
  end.

(** [s.endsWith(p)]. *)
Definition endsWith (s p : str) : bool := startsWith (rev s) (rev p).

(** [s.slice(n)] for a non-negative [n]. *)
Definition slice (n : nat) (s : str) : str := skipn n s.

(** [s.split(sep)] for a one-character separator; the result is never
    empty: [''.split(' ')] is [['']]. *)
Fixpoint split (sep : ascii) (s : str) : list str :=
  match s with
  | [] => [[]]
  | c :: s' =>
      if Ascii.eqb c sep then [] :: split sep s'
      else match split sep s' with
           | p :: ps => (c :: p) :: ps
           | [] => [[c]]
           end
  end.

(** [parts.join(sep)]. *)
Fixpoint join (sep : str) (parts : list str) : str :=
  match parts with
  | [] => []
  | [p] => p
  | p :: ps => p ++ sep ++ join sep ps
  end.

(** [s.replace(/ /g, '%s')]. *)
Definition escapeSpaces (s : str) : str :=
  flat_map (fun c => if Ascii.eqb c " " then lit "%s" else [c]) s.

(** [s.replace(/^adb\s+/, '')]. *)
Definition stripAdb (s : str) : str :=
  if startsWith s (lit "adb") then
    match slice 3 s with
    | c :: r => if isWhite c then dropWhile isWhite r else s
    | [] => s
    end
  else s.

(** [s.replace(pat, '')] for a string pattern: the first occurrence only. *)
Fixpoint removeFirst (pat s : str) : str :=
  if startsWith s pat then slice (List.length pat) s
  else match s with
       | [] => []
       | c :: s' => c :: removeFirst pat s'
       end.

(** ** JavaScript numbers *)

Inductive JsNum : Type :=
| NaN
| Inf (negative : bool)
| Num (z : Z).

(** An integer written where a number is expected is the number that
    holds it. *)
Coercion Num : Z >-> JsNum.
Bind Scope Z_scope with JsNum.

(** [Number.MAX_SAFE_INTEGER], 2^53 - 1: every integer up to it is a
    double. *)
Definition maxSafe : Z := 9007199254740991.

(** The double nearest to the integer [z], with a tie going to the even
    significand: the rounding of IEEE 754 that reading a number and every
    operation on numbers end with.  Beyond [maxSafe] a double keeps the 53
    leading bits [q] of the magnitude and [e] zero bits after them; from
    2^1024 on the result is an infinity. *)
Definition toDouble (z : Z) : JsNum :=
  let a := Z.abs z in
  if (a <=? maxSafe)%Z then Num z
  else
    let e := (Z.log2 a - 52)%Z in
    let q := Z.shiftr a e in
    let r := (a - Z.shiftl q e)%Z in
    let half := Z.shiftl 1 (e - 1) in
    let q' := if (half <? r)%Z || ((half =? r)%Z && Z.odd q)
              then (q + 1)%Z else q in
    let v := Z.shiftl q' e in
    if (Z.shiftl 1 1024 <=? v)%Z then Inf (z <? 0)%Z
    else Num (if (z <? 0)%Z then - v else v).

(** [a * k] for an integer [k] that is a double. *)
Definition jsMul (a : JsNum) (k : Z) : JsNum :=
  match a with
  | NaN => NaN
  | Inf negative =>
      if (k =? 0)%Z then NaN else Inf (xorb negative (k <? 0)%Z)
  | Num z => toDouble (z * k)
  end.

(** [a + b]. *)
Definition jsAdd (a b : JsNum) : JsNum :=
  match a, b with
  | NaN, _ | _, NaN => NaN
  | Inf s, Inf t => if Bool.eqb s t then Inf s else NaN
  | Inf s, Num _ | Num _, Inf s => Inf s
  | Num x, Num y => toDouble (x + y)
  end.

(** [a - b]. *)
Definition jsSub (a b : JsNum) : JsNum :=
  match a, b with
  | NaN, _ | _, NaN => NaN
  | Inf s, Inf t => if Bool.eqb s t then NaN else Inf s
  | Inf s, Num _ => Inf s
  | Num _, Inf t => Inf (negb t)
  | Num x, Num y => toDouble (x - y)
  end.

(** [Math.floor(a / 2)]: halving a double that holds an integer is
    exact. *)
Definition floorHalf (a : JsNum) : JsNum :=
  match a with
  | Num z => Num (z / 2)
  | _ => a
  end.

Definition digitVal (c : ascii) : Z := Z.of_nat (nat_of_ascii c - 48).

(** Value of a string of decimal digits, most significant first. *)
Definition digitsVal (ds : str) : Z :=
  fold_left (fun acc c => 10 * acc + digitVal c)%Z ds 0%Z.

(** [Number(ds)] for a string of decimal digits. *)
Definition toNumber (ds : str) : JsNum := toDouble (digitsVal ds).

(** [parseInt(s, 10)]: leading white space, an optional sign, the longest
    run of digits, read as the nearest double; [NaN] when that run is
    empty.  [parseInt(s)] without a radix, which [getScreenSize] calls on
    the groups of its match, is the same on a string of digits. *)
Definition parseInt (s : str) : JsNum :=
  let s1 := trimStart s in
  let '(neg, s2) :=
    match s1 with
    | c :: r =>
        if Ascii.eqb c "-" then (true, r)
        else if Ascii.eqb c "+" then (false, r)
        else (false, s1)
    | [] => (false, s1)
    end in
  match takeWhile isDigit s2 with
  | [] => NaN
  | ds => toDouble (if neg then - digitsVal ds else digitsVal ds)
  end.

(** Truthiness of [step.sleep]: [undefined], [NaN] and [0] are falsy. *)
Definition sleepTruthy (v : option JsNum) : bool :=
  match v with
  | Some (Num z) => negb (z =? 0)%Z
  | Some (Inf _) => true
  | _ => false
  end.

(** The number held by a truthy [step.sleep]. *)
Definition sleepMs (v : option JsNum) : JsNum :=
  match v with
  | Some n => n
  | None => 0
  end.

(** [String(n)] for an integer; the decimal digits, which is what
    JavaScript gives below 10^21. *)
Definition showZ (z : Z) : str :=
  lit (NilZero.string_of_int (Z.to_int z)).

(** [String(n)] for a number. *)
Definition showNum (n : JsNum) : str :=
  match n with
  | NaN => lit "NaN"
  | Inf false => lit "Infinity"
  | Inf true => lit "-Infinity"
  | Num z => showZ z
  end.

(** ** The bounds pattern

    Line 106 of the source reads [bounds.match(/M(\d+),(\d+)MM(\d+),(\d+)M/)]
    where each [M] is the character U+E001 itself, written in the file as
    the bytes EE 80 81: the two numbers of a pair are separated by a
    comma, and a U+E001 stands before and after each pair.

    A backtracking matcher in continuation-passing style.  [digits1 k]
    is a greedy capture group [(\d+)]: it first tries to take one more
    digit, and gives the group as it stands to the rest of the pattern
    [k] only when the longer attempts have failed. *)

(** The character U+E001. *)
Definition mark : str := [ascii_of_nat 238; ascii_of_nat 128; ascii_of_nat 129].

Section BoundsPattern.
Variable R : Type.

Fixpoint digitsMore (k : str -> str -> option R) (acc s : str) : option R :=
  match s with
  | c :: s' =>
      if isDigit c then
        match digitsMore k (acc ++ [c]) s' with
        | Some r => Some r
        | None => k (acc ++ [c]) s'
        end
      else None
  | [] => None
  end.

Definition digits1 (k : str -> str -> option R) (s : str) : option R :=
  digitsMore k [] s.

Definition char1 (c : ascii) (k : str -> option R) (s : str) : option R :=
  match s with
  | d :: s' => if Ascii.eqb c d then k s' else None
  | [] => None
  end.

(** The characters of [cs], one after the other. *)
Fixpoint chars (cs : str) (k : str -> option R) (s : str) : option R :=
  match cs with
  | [] => k s
  | c :: cs' => char1 c (chars cs' k) s
  end.
End BoundsPattern.

(** The four captured groups of a match. *)
Definition Groups : Type := (str * str * str * str)%type.

(** The pattern anchored at the head of [s]. *)
Definition boundsAt (s : str) : option Groups :=
  chars mark (
    digits1 (fun g1 =>
      char1 "," (
        digits1 (fun g2 =>
          chars mark (
            chars mark (
              digits1 (fun g3 =>
                char1 "," (
                  digits1 (fun g4 =>
                    chars mark (fun _ => Some (g1, g2, g3, g4))))))))))) s.

(** [bounds.match(...)]: the leftmost position at which the pattern
    matches; [None] is JavaScript's [null]. *)
Fixpoint boundsMatch (s : str) : option Groups :=
  match boundsAt s with
  | Some g => Some g
  | None =>
      match s with
      | [] => None
      | _ :: s' => boundsMatch s'
      end
  end.

(** ** The layout document and [extractUiElements]

    The value [xml2js] resolves to: an element is an object whose [$]
    property, when present, maps attribute names to strings and whose other
    properties hold arrays of children keyed by tag name; character data is
    a string.  Properties are kept in insertion order, the order in which
    [for (const key in node)] visits them. *)

#[warnings="-register-all"] Inductive JsVal : Type :=
| JStr (s : str)
| JObj (attrs : option (list (str * str))) (props : list (str * JsVal))
| JArr (items : list JsVal).

Fixpoint assoc {A : Type} (k : str) (l : list (str * A)) : option A :=
  match l with
  | [] => None
  | (k', v) :: l' => if str_eqb k k' then Some v else assoc k l'
  end.

(** [v[k]] for a property name that no string or array has of its own;
    [None] is [undefined]. *)
Definition getProp (v : JsVal) (k : str) : option JsVal :=
  match v with
  | JObj _ props => assoc k props
  | _ => None
  end.

Definition truthy (v : JsVal) : bool :=
  match v with
  | JStr [] => false
  | _ => true
  end.

(** [attrs[k] || '']. *)
Definition attrOr (attrs : list (str * str)) (k : str) : str :=
  match assoc k attrs with
  | Some s => s
  | None => []
  end.

Record UiElement : Type := mkUiElement {
  text : str;
  resourceId : str;
  class : str;
  x : JsNum;
  y : JsNum;
  width : JsNum;
  height : JsNum
}.

(** The body of [if (match) { ... }]: [match.map(Number)] and the pushed
    element. *)
Definition elementOf (attrs : list (str * str)) (g : Groups) : UiElement :=
  let '(g1, g2, g3, g4) := g in
  let x1 := toNumber g1 in
  let y1 := toNumber g2 in
  let x2 := toNumber g3 in
  let y2 := toNumber g4 in
  {| text := attrOr attrs (lit "text");
     resourceId := attrOr attrs (lit "resource-id");
     class := attrOr attrs (lit "class");
     x := floorHalf (jsAdd x1 x2);
     y := floorHalf (jsAdd y1 y2);
     width := jsSub x2 x1;
     height := jsSub y2 y1 |}.

(** The [if (node.$) { ... }] block: what the node itself pushes. *)
Definition ownElements (attrs : option (list (str * str))) : list UiElement :=
  match attrs with
  | Some a =>
      match boundsMatch (attrOr a (lit "bounds")) with
      | Some g => [elementOf a g]
      | None => []
      end
  | None => []
  end.

(** [traverse(node)], returning the elements it pushes, in order.  The
    [for ... in] loop descends into the properties that are arrays: for an
    object these are its child lists, for an array its items that are
    arrays themselves; the characters of a string are never arrays. *)
Fixpoint traverse (node : JsVal) : list UiElement :=
  match node with
  | JStr _ => []
  | JObj attrs props =>
      ownElements attrs ++
      flat_map (fun kv =>
                  match snd kv with
                  | JArr items => flat_map traverse items
                  | _ => []
                  end) props
  | JArr items =>
      flat_map (fun v =>
                  match v with
                  | JArr inner => flat_map traverse inner
                  | _ => []
                  end) items
  end.

(** [extractUiElements(uiTree)]; [None] is [null]. *)
Definition extractUiElements (uiTree : option JsVal) : list UiElement :=
  match uiTree with
  | Some t =>
      if truthy t then
        match getProp t (lit "hierarchy") with
        | Some h =>
            if truthy h then
              match getProp h (lit "node") with
              | Some n => if truthy n then traverse n else []
              | None => []
              end
            else []
        | None => []
        end
      else []
  | None => []
  end.

(** The label and position of one element in the context string:
    [`${e.text || e.resourceId || e.class} [${e.x},${e.y}]`]. *)
Definition describe (e : UiElement) : str :=
  (match text e with
   | [] => match resourceId e with
           | [] => class e
           | r => r
           end
   | t => t
   end) ++ lit " [" ++ showNum (x e) ++ lit "," ++ showNum (y e) ++ lit "]".

(** ** The plan parser (lines 192-208 of [runAgent]) *)

Definition nl : ascii := ascii_of_nat 10.

(** A step object: [primary] is always set, [sleep] is [undefined]
    ([None]) until a [Sleep:] line assigns it. *)
Record Step : Type := mkStep {
  primary : str;
  sleep : option JsNum
}.

Definition isDone (s : str) : bool := str_eqb (toUpperCase s) (lit "DONE").

(** The [for (let line of lines)] loop, threading [steps] and
    [currentStep]. *)
Fixpoint parseLines (lines : list str) (steps : list Step)
    (currentStep : option Step) : list Step * option Step :=
  match lines with
  | [] => (steps, currentStep)
  | line :: rest =>
      let trimmed := trim line in
      if isDone trimmed then parseLines rest steps currentStep
      else if startsWith trimmed (lit "Command:") then
        let steps' :=
          match currentStep with
          | Some s => steps ++ [s]
          | None => steps
          end in
        parseLines rest steps'
          (Some {| primary := trim (slice 8 trimmed); sleep := None |})
      else if startsWith trimmed (lit "Sleep:") then
        match currentStep with
        | Some s =>
            let sleepSec := parseInt (trim (slice 6 trimmed)) in
            parseLines rest steps
              (Some {| primary := primary s;
                       sleep := Some (jsMul sleepSec 1000) |})
        | None => parseLines rest steps currentStep
        end
      else parseLines rest steps currentStep
  end.

(** From [aiOutput.split('\n')] to [if (currentStep) steps.push(currentStep)]. *)
Definition parseReply (aiOutput : str) : list Step :=
  let '(steps, currentStep) := parseLines (split nl aiOutput) [] None in
  match currentStep with
  | Some s => steps ++ [s]
  | None => steps
  end.

(** ** Normalisation of a step (lines 212-230) *)

(** The [if (step.primary.startsWith('shell input text'))] block. *)
Definition normalizeText (p : str) : str :=
  if startsWith p (lit "shell input text") then
    let parts := split " " p in
    if 4 <=? List.length parts then
      let textArg := join (lit " ") (skipn 3 parts) in
      lit "shell input text " ++ escapeSpaces textArg
    else p
  else p.

(** The test that guards the [continue] of the tap block. *)
Definition tapRejected (p : str) : bool :=
  startsWith p (lit "shell input tap") && (List.length (split " " p) <? 4).

(** [step.primary] as it stands after lines 212-221. *)
Definition normalize (p : str) : str := normalizeText (stripAdb p).

(** ** Effects

    A computation of the agent runs against an environment that answers
    its calls: the state it threads holds the world of the environment,
    the trace of the calls made so far and the [conversation] array. *)

Inductive Role : Type := system | user | assistant.

Record Message : Type := mkMessage {
  role : Role;
  content : str
}.

(** The outcome of a call that can throw (or of a promise that can
    reject); [Throw] carries [error.message]. *)
Inductive Res (A : Type) : Type :=
| Ok (a : A)
| Throw (msg : str).

Arguments Ok {A} a.
Arguments Throw {A} msg.

Inductive Event : Type :=
| EExec (cmdline : str)            (* child_process.exec *)
| EChat (messages : list Message)  (* groq.chat.completions.create *)
| EAsk                             (* readline question *)
| EDelay (ms : JsNum).             (* setTimeout *)

Record Env (W : Type) : Type := mkEnv {
  (* [exec(cmdline)]: the standard output, or the message of the error *)
  exec : str -> W -> Res str * W;
  (* [fs.existsSync('./ui.xml')] *)
  existsSync : W -> bool;
  (* [fs.readFileSync('./ui.xml', 'utf-8')] *)
  readFileSync : W -> Res str;
  (* [fs.unlinkSync('./ui.xml')] *)
  unlinkSync : W -> W;
  (* [parser.parseStringPromise(xmlData)]; [Ok None] is a [null] result *)
  parseStringPromise : str -> Res (option JsVal);
  (* the completion call, giving [response.choices[0].message.content] *)
  complete : list Message -> W -> Res str * W;
  (* the answer typed at the prompt *)
  question : W -> str * W;
  (* the wait for a timer set with [setTimeout(resolve, ms)] *)
  timeout : JsNum -> W -> W
}.

Record St (W : Type) : Type := mkSt {
  world : W;
  trace : list Event;
  conversation : list Message
}.

Definition M (W A : Type) : Type := St W -> Res A * St W.

Definition ret {W A} (a : A) : M W A := fun st => (Ok a, st).

Definition throw {W A} (msg : str) : M W A := fun st => (Throw msg, st).

Definition bind {W A B} (m : M W A) (k : A -> M W B) : M W B :=
  fun st =>
    match m st with
    | (Ok a, st') => k a st'
    | (Throw msg, st') => (Throw msg, st')
    end.

(** [try { m } catch (err) { h(err.message) }]. *)
Definition tryCatch {W A} (m : M W A) (h : str -> M W A) : M W A :=
  fun st =>
    match m st with
    | (Ok a, st') => (Ok a, st')
    | (Throw msg, st') => h msg st'
    end.

(** Runs [m] and hands its outcome over as a value. *)
Definition attempt {W A} (m : M W A) : M W (Res A) :=
  fun st => let '(r, st') := m st in (Ok r, st').

Declare Scope agent_scope.
Delimit Scope agent_scope with agent.
Notation "x <- m ;; k" := (bind m (fun x => k))
  (at level 61, m at next level, right associativity) : agent_scope.
Notation "m ;; k" := (bind m (fun _ => k))
  (at level 61, right associativity) : agent_scope.
Open Scope agent_scope.

(** The system message that opens the conversation. *)
Definition systemPrompt (packages : str) : str :=
  lit "You are an autonomous Android control agent via ADB in Termux. " ++
  lit "Your task is to navigate apps using UI interactions (taps, swipes, text input) based on UI element positions and text. " ++
  lit "Avoid using " ++ [dquote] ++ lit "shell am start ..." ++ [dquote] ++
  lit " unless no UI path exists. Instead, use a launcher command like " ++
  [dquote] ++ lit "shell monkey -p <package> -c android.intent.category.LAUNCHER 1" ++
  [dquote] ++ lit " when opening an app. " ++
  lit "Available packages: " ++ packages ++ lit ". " ++
  lit "Provide one command per step (max 2 per iteration) in the following format on separate lines:" ++ [nl] ++
  lit "Command: <without the adb prefix> " ++ [dquote] ++
  lit "shell input tap 500 500" ++ [dquote] ++ lit " or 'shell input text " ++
  [dquote] ++ lit "hello" ++ [dquote] ++ lit "'>" ++ [nl] ++
  lit "Sleep: <duration in seconds>" ++ [nl] ++
  lit "Read the current UI context before proceeding with gestures. " ++
  lit "Reply " ++ [dquote] ++ lit "DONE" ++ [dquote] ++
  lit " when the task is complete. " ++
  lit "DO NOT INCLUDE ANY ADDITIONAL TEXT. " ++
  lit "RESPOND WITH " ++ [dquote] ++ lit "DONE" ++ [dquote] ++
  lit " if no further actions are required or the motive has been satisfied".

(** How the [for (let step of steps)] loop is left: by running out of
    steps, or by the [return] that follows a failed command. *)
Inductive Ctl : Type := Completed | Returned.

(** How [runAgent] ends; [Pending] stands for a run that is still in its
    [while (true)] loop when the model stops following it. *)
Inductive Outcome : Type :=
| NoGoal
| Done
| CommandFailed
| Caught (msg : str)
| Pending.

(** ** The agent *)

Section Agent.
Context {W : Type} (E : Env W).

Definition emit (e : Event) (st : St W) : St W :=
  {| world := world st; trace := trace st ++ [e];
     conversation := conversation st |}.

Definition setWorld (w : W) (st : St W) : St W :=
  {| world := w; trace := trace st; conversation := conversation st |}.

(** [util.promisify(exec)(cmdline)], resolving to [stdout]. *)
Definition execP (cmdline : str) : M W str :=
  fun st =>
    let '(r, w) := exec E cmdline (world st) in
    (r, setWorld w (emit (EExec cmdline) st)).

(** [conversation.push(m)]. *)
Definition push (m : Message) : M W unit :=
  fun st =>
    (Ok tt, {| world := world st; trace := trace st;
               conversation := conversation st ++ [m] |}).

(** [await new Promise(resolve => setTimeout(resolve, ms))]. *)
Definition delay (ms : JsNum) : M W unit :=
  fun st => (Ok tt, setWorld (timeout E ms (world st)) (emit (EDelay ms) st)).

Definition executeAdbCommand (command : str) : M W str :=
  tryCatch
    (stdout <- execP (lit "adb " ++ command) ;; ret (trim stdout))
    (fun message => throw (lit "ADB command failed: " ++ message)).

Definition getAllPackages : M W str :=
  stdout <- executeAdbCommand (lit "shell pm list packages") ;;
  ret (join (lit ", ")
         (filter (fun l => negb (str_eqb l []))
            (map (fun line => trim (removeFirst (lit "package:") line))
               (split nl stdout)))).

Definition checkAdbConnection : M W unit :=
  tryCatch
    (stdout <- executeAdbCommand (lit "devices") ;;
     let devices :=
       filter (fun line => endsWith (trim line) (lit "device"))
         (split nl stdout) in
     match devices with
     | [] => throw (lit "No devices found. Ensure the device is connected and authorized.")
     | _ => ret tt
     end)
    (fun message => throw (lit "ADB connection failed: " ++ message)).

Definition askGoal : M W str :=
  fun st =>
    let '(answer, w) := question E (world st) in
    (Ok (trim answer), setWorld w (emit EAsk st)).

Definition showToast (message : str) : M W unit :=
  tryCatch
    (execP (lit "termux-toast -g bottom " ++ [dquote] ++ message ++ [dquote]) ;;
     ret tt)
    (fun _ => ret tt).

(** The [try] block of [getUiTree]. *)
Definition fetchLayout : M W (option JsVal) :=
  executeAdbCommand (lit "shell uiautomator dump /sdcard/ui.xml") ;;
  executeAdbCommand (lit "pull /sdcard/ui.xml ./ui.xml") ;;
  (fun st =>
     if existsSync E (world st) then
       match readFileSync E (world st) with
       | Ok xmlData => (parseStringPromise E xmlData, st)
       | Throw msg => (Throw msg, st)
       end
     else (Throw (lit "Failed to pull ui.xml: file not found"), st)).

Definition getUiTree : M W (option JsVal) :=
  tryCatch fetchLayout (fun _ => ret None).

(** [!uiTree]. *)
Definition absent (uiTree : option JsVal) : bool :=
  match uiTree with
  | Some t => negb (truthy t)
  | None => true
  end.

Definition getContext : M W str :=
  uiTree <- getUiTree ;;
  if absent uiTree then ret (lit "Unknown")
  else ret (join (lit ", ") (map describe (extractUiElements uiTree))).

Definition contextMessage (context : str) : Message :=
  {| role := system; content := lit "UI Context: " ++ context |}.

(** One iteration of the [for (let step of steps)] loop (lines 211-254);
    [next] is the rest of the loop, which [continue] and the end of the
    body go on with and [return] drops. *)
Definition runStep (step : Step) (next : M W Ctl) : M W Ctl :=
  match primary step with
  | [] => next
  | _ :: _ =>
      let p := normalize (primary step) in
      if tapRejected p then
        showToast (lit "Skipping invalid tap command.") ;;
        next
      else
        r <- attempt (executeAdbCommand p) ;;
        match r with
        | Throw _ =>
            showToast (lit "Command failed: " ++ p) ;;
            ret Returned
        | Ok _ =>
            showToast (lit "Executed: " ++ p) ;;
            delay 1500 ;;
            (if sleepTruthy (sleep step)
             then delay (sleepMs (sleep step))
             else ret tt) ;;
            newContext <- getContext ;;
            push (contextMessage newContext) ;;
            next
        end
  end.

(** The [for (let step of steps)] loop (lines 210-255). *)
Fixpoint runSteps (steps : list Step) : M W Ctl :=
  match steps with
  | [] => ret Completed
  | step :: rest => runStep step (runSteps rest)
  end.

(** [groq.chat.completions.create({ messages: conversation, ... })],
    giving [response.choices[0].message.content]. *)
Definition chat : M W str :=
  fun st =>
    let '(r, w) := complete E (conversation st) (world st) in
    (r, setWorld w (emit (EChat (conversation st)) st)).

(** The head of a turn (lines 171-185): observe, ask the planner, record
    its trimmed reply. *)
Definition planTurn : M W str :=
  context <- getContext ;;
  push (contextMessage context) ;;
  reply <- chat ;;
  let aiOutput := trim reply in
  push {| role := assistant; content := aiOutput |} ;;
  ret aiOutput.

(** The [while (true)] loop, followed for at most [fuel] turns.  The
    parser and the step loop are arguments, so that a statement can say
    that a turn does not depend on them; [agentLoop] below is the loop of
    the source. *)
Fixpoint agentLoopWith (parse : str -> list Step)
    (run : list Step -> M W Ctl) (fuel : nat) : M W Outcome :=
  match fuel with
  | O => ret Pending
  | S fuel' =>
      aiOutput <- planTurn ;;
      if isDone aiOutput then
        showToast (lit "Execution complete.") ;;
        ret Done
      else
        c <- run (parse aiOutput) ;;
        match c with
        | Returned => ret CommandFailed
        | Completed => agentLoopWith parse run fuel'
        end
  end.

Definition agentLoop : nat -> M W Outcome := agentLoopWith parseReply runSteps.

(** The body of the [try] block of [runAgent]. *)
Definition agentBody (fuel : nat) : M W Outcome :=
  showToast (lit "AI Agent Starting") ;;
  checkAdbConnection ;;
  userCommand <- askGoal ;;
  match userCommand with
  | [] => showToast (lit "No command provided.") ;; ret NoGoal
  | _ :: _ =>
      push {| role := user; content := userCommand |} ;;
      agentLoop fuel
  end.

(** The [finally] block. *)
Definition cleanup : M W unit :=
  fun st =>
    if existsSync E (world st)
    then (Ok tt, setWorld (unlinkSync E (world st)) st)
    else (Ok tt, st).

(** [runAgent()], started in the world [w]; a [Throw] is a rejected
    promise.  The conversation is created once the package list is
    known. *)
Definition runAgent (fuel : nat) (w : W) : Res Outcome * St W :=
  (packages <- getAllPackages ;;
   push {| role := system; content := systemPrompt packages |} ;;
   r <- tryCatch (agentBody fuel)
          (fun message =>
             showToast (lit "Error: " ++ message) ;; ret (Caught message)) ;;
   match r with
   | Pending => ret Pending
   | _ => cleanup ;; ret r
   end) {| world := w; trace := []; conversation := [] |}.

End Agent.

(** ** Vocabulary of the statements *)

(** A string of decimal digits. *)
Definition digitStr (s : str) : Prop := Forall (fun c => isDigit c = true) s.

(** The bounds attribute as the layout dump writes it: [[x1,y1][x2,y2]]. *)
Definition boundsText (x1 y1 x2 y2 : str) : str :=
  lit "[" ++ x1 ++ lit "," ++ y1 ++ lit "][" ++ x2 ++ lit "," ++ y2 ++ lit "]".

(** The two pairs as the pattern of [traverse] wants them, a U+E001
    where the dump has a bracket. *)
Definition markedBounds (x1 y1 x2 y2 : str) : str :=
  mark ++ x1 ++ lit "," ++ y1 ++ mark ++ mark ++ x2 ++ lit "," ++ y2 ++ mark.

(** A number written in digits. *)
Definition numeral (s : str) : Prop := digitStr s /\ s <> [].

(** [c] is the upper-case letter [d] in either case. *)
Definition caseVariant (c d : ascii) : Prop :=
  c = d \/ c = ascii_of_nat (nat_of_ascii d + 32).

(** The reply protocol as the specification words it: every line is one
    directive. *)
Inductive Directive : Type :=
| DCommand (action : str)
| DSleep (seconds : JsNum)
| DIgnored.

Definition classify (line : str) : Directive :=
  let trimmed := trim line in
  if isDone trimmed then DIgnored
  else if startsWith trimmed (lit "Command:") then
    DCommand (trim (slice 8 trimmed))
  else if startsWith trimmed (lit "Sleep:") then
    DSleep (parseInt (trim (slice 6 trimmed)))
  else DIgnored.

Definition finalized (open : option Step) : list Step :=
  match open with
  | Some s => [s]
  | None => []
  end.

(** The steps of a sequence of directives, [open] being the step under
    construction: a command finalizes it and opens a new one, a delay
    sets the delay of the open step and is ignored without one, and the
    step open at the end is appended. *)
Fixpoint stepsOfDirectives (ds : list Directive) (open : option Step)
    : list Step :=
  match ds with
  | [] => finalized open
  | DCommand action :: ds' =>
      finalized open ++
      stepsOfDirectives ds' (Some {| primary := action; sleep := None |})
  | DSleep seconds :: ds' =>
      match open with
      | Some s =>
          stepsOfDirectives ds'
            (Some {| primary := primary s;
                     sleep := Some (jsMul seconds 1000) |})
      | None => stepsOfDirectives ds' None
      end
  | DIgnored :: ds' => stepsOfDirectives ds' open
  end.

(** The actions of the command lines, in the order of the lines. *)
Definition commandActions (ds : list Directive) : list str :=
  flat_map (fun d => match d with
                     | DCommand action => [action]
                     | _ => []
                     end) ds.

(** The payload of a text action as the specification words it:
    everything after the third token, the tokens being what white space
    separates.  [skipToken] goes past the white space before a token and
    past the token. *)
Definition skipToken (s : str) : str :=
  dropWhile (fun c => negb (isWhite c)) (dropWhile isWhite s).

Definition payloadAfterThirdToken (p : str) : str :=
  dropWhile isWhite (skipToken (skipToken (skipToken p))).

(** [st'] continues [st]: the trace and the conversation of [st] are
    still there, with what came after them at the end. *)
Definition extends {W} (st st' : St W) : Prop :=
  (exists t, trace st' = trace st ++ t) /\
  (exists c, conversation st' = conversation st ++ c).

(** The command line of a device command and of a toast. *)
Definition adbLine (command : str) : str := lit "adb " ++ command.

Definition toastLine (message : str) : str :=
  lit "termux-toast -g bottom " ++ [dquote] ++ message ++ [dquote].

(** The device commands among the calls of a trace. *)
Definition adbCalls (t : list Event) : list str :=
  flat_map (fun e => match e with
                     | EExec c =>
                         if startsWith c (lit "adb ") then [slice 4 c] else []
                     | _ => []
                     end) t.

(** The two device commands of a layout fetch. *)
Definition dumpLine : str := adbLine (lit "shell uiautomator dump /sdcard/ui.xml").
Definition pullLine : str := adbLine (lit "pull /sdcard/ui.xml ./ui.xml").

(** The ways a layout fetch started in the world [w] can fail: the dump
    command, the pull command, the missing file, the read, the parse. *)
Inductive fetchFails {W} (E : Env W) (w : W) : Prop :=
| DumpFails (msg : str) (w1 : W) :
    exec E dumpLine w = (Throw msg, w1) -> fetchFails E w
| PullFails (out msg : str) (w1 w2 : W) :
    exec E dumpLine w = (Ok out, w1) ->
    exec E pullLine w1 = (Throw msg, w2) -> fetchFails E w
| FileMissing (out1 out2 : str) (w1 w2 : W) :
    exec E dumpLine w = (Ok out1, w1) ->
    exec E pullLine w1 = (Ok out2, w2) ->
    existsSync E w2 = false -> fetchFails E w
| ReadFails (out1 out2 msg : str) (w1 w2 : W) :
    exec E dumpLine w = (Ok out1, w1) ->
    exec E pullLine w1 = (Ok out2, w2) ->
    existsSync E w2 = true ->
    readFileSync E w2 = Throw msg -> fetchFails E w
| ParseFails (out1 out2 xmlData msg : str) (w1 w2 : W) :
    exec E dumpLine w = (Ok out1, w1) ->
    exec E pullLine w1 = (Ok out2, w2) ->
    existsSync E w2 = true ->
    readFileSync E w2 = Ok xmlData ->
    parseStringPromise E xmlData = Throw msg -> fetchFails E w.

(** A computation that leaves every state it runs in continued. *)
Definition growing {W A} (m : M W A) : Prop :=
  forall st, extends st (snd (m st)).

(** [m], and then [k] unless [m] left the loop by [return]. *)
Definition andThen {W} (m k : M W Ctl) : M W Ctl :=
  c <- m ;;
  match c with
  | Completed => k
  | Returned => ret Returned
  end.

(** The state in which the device command [p] has just been issued. *)
Definition issued {W} (E : Env W) (p : str) (st : St W) : St W :=
  setWorld (snd (exec E (adbLine p) (world st))) (emit (EExec (adbLine p)) st).

(** A step the loop goes past without a device command. *)
Definition emptyAction (s : Step) : bool :=
  match primary s with
  | [] => true
  | _ :: _ => false
  end.

(** ** A scripted environment

    Its world is the list of the planner's replies still to come.  Every
    command line succeeds except those listed in [bad]; a device is
    attached; the layout dump is [scriptedDoc]. *)

Definition scriptedDoc : JsVal :=
  JObj None
    [(lit "hierarchy",
      JObj (Some [(lit "rotation", lit "0")])
        [(lit "node",
          JArr [JObj (Some [(lit "text", lit "OK");
                            (lit "class", lit "android.widget.Button");
                            (lit "bounds", lit "[0,0][1080,1920]")])
                  []])])].

Definition scripted (bad : list str) : Env (list str) :=
  {| exec := fun cmdline w =>
       if existsb (str_eqb cmdline) bad
       then (Throw (lit "Command failed: " ++ cmdline), w)
       else if str_eqb cmdline (lit "adb devices")
       then (Ok (lit "List of devices attached" ++ [nl] ++
                 lit "emulator-5554" ++ [ascii_of_nat 9] ++ lit "device"), w)
       else (Ok [], w);
     existsSync := fun _ => true;
     readFileSync := fun _ => Ok (lit "<hierarchy/>");
     unlinkSync := fun w => w;
     parseStringPromise := fun _ => Ok (Some scriptedDoc);
     complete := fun _ w =>
       match w with
       | r :: w' => (Ok r, w')
       | [] => (Throw (lit "no completion"), [])
       end;
     question := fun w => (lit "open the settings", w);
     timeout := fun _ w => w |}.

Definition scriptedSt (replies : list str) : St (list str) :=
  {| world := replies; trace := []; conversation := [] |}.

(** ** The gesture helpers and [getScreenSize] (lines 19-48)

    [tap], [inputText] and [swipe] build one device command each; their
    coordinates and durations are integers. *)

Definition tapCommand (x y : Z) : str :=
  lit "shell input tap " ++ showZ x ++ lit " " ++ showZ y.

Definition inputTextCommand (text : str) : str :=
  let escapedText := escapeSpaces text in
  lit "shell input text " ++ escapedText.

Definition swipeCommand (fromX fromY toX toY duration : Z) : str :=
  lit "shell input swipe " ++ showZ fromX ++ lit " " ++ showZ fromY ++
  lit " " ++ showZ toX ++ lit " " ++ showZ toY ++ lit " " ++ showZ duration.

(** The pattern [/Physical size: (\d+)x(\d+)/] anchored at the head of
    [s], and the leftmost position at which it matches. *)
Definition sizeAt (s : str) : option (str * str) :=
  if startsWith s (lit "Physical size: ") then
    digits1 (fun g1 =>
      char1 "x" (digits1 (fun g2 _ => Some (g1, g2)))) (slice 15 s)
  else None.

Fixpoint sizeMatch (s : str) : option (str * str) :=
  match sizeAt s with
  | Some g => Some g
  | None =>
      match s with
      | [] => None
      | _ :: s' => sizeMatch s'
      end
  end.

Section Gestures.
Context {W : Type} (E : Env W).

Definition tap (x y : Z) : M W unit :=
  executeAdbCommand E (tapCommand x y) ;; ret tt.

Definition inputText (text : str) : M W unit :=
  executeAdbCommand E (inputTextCommand text) ;; ret tt.

Definition swipe (fromX fromY toX toY duration : Z) : M W unit :=
  executeAdbCommand E (swipeCommand fromX fromY toX toY duration) ;; ret tt.

(** [getScreenSize()]: the pair is [{ width, height }]. *)
Definition getScreenSize : M W (JsNum * JsNum) :=
  stdout <- executeAdbCommand E (lit "shell wm size") ;;
  match sizeMatch stdout with
  | None => throw (lit "Unable to get screen size.")
  | Some (g1, g2) => ret (parseInt g1, parseInt g2)
  end.

End Gestures.

(** ** Vocabulary of the further statements *)

(** [m], run on a conversation for which [I] holds, ends with one for
    which [I] holds and adds to the trace only events that satisfy [P]. *)
Definition keeps {W A} (I : list Message -> Prop) (P : Event -> Prop)
    (m : M W A) : Prop :=
  forall st, I (conversation st) ->
    I (conversation (snd (m st))) /\
    exists t, trace (snd (m st)) = trace st ++ t /\ Forall P t.

(** The first thing [m] adds to the trace is the event [e]. *)
Definition emitsFirst {W A} (e : Event) (m : M W A) : Prop :=
  forall st, exists t, trace (snd (m st)) = trace st ++ e :: t.

(** [m] adds to the conversation only messages that satisfy [Q]. *)
Definition appends {W A} (Q : Message -> Prop) (m : M W A) : Prop :=
  forall st, exists c,
    conversation (snd (m st)) = conversation st ++ c /\ Forall Q c.

(** What the step loop may add to the trace: toasts, delays, and device
    commands that are in normal form and pass the tap test. *)
Definition stepLoopEvent (e : Event) : Prop :=
  match e with
  | EExec c =>
      (exists message, c = toastLine message) \/
      (exists p, c = adbLine p /\ tapRejected p = false /\ normalizeText p = p)
  | EDelay _ => True
  | EChat _ => False
  | EAsk => False
  end.

(** A planner call that carries the whole history: its messages start
    with [front] and end with a context message. *)
Definition plannerCall (front : list Message) (e : Event) : Prop :=
  match e with
  | EChat messages => exists c context,
      messages = front ++ c ++ [contextMessage context]
  | _ => True
  end.

(** The planner calls of a trace, in order: the messages each was given. *)
Definition chatCalls (t : list Event) : list (list Message) :=
  flat_map (fun e => match e with
                     | EChat messages => [messages]
                     | _ => []
                     end) t.

(** A planner call made after the user gave a goal: its messages are
    those of [front], the goal, and what came after. *)
Definition chatAfterGoal (front : list Message) (e : Event) : Prop :=
  match e with
  | EChat messages => exists goal c,
      goal <> [] /\
      messages = front ++ {| role := user; content := goal |} :: c
  | _ => True
  end.


(** What the loop of the agent adds to the conversation: context messages
    and the trimmed replies of the planner. *)
Definition isContextMessage (m : Message) : Prop :=
  exists context, m = contextMessage context.

Definition loopMessage (m : Message) : Prop :=
  isContextMessage m \/
  (role m = assistant /\ trim (content m) = content m).




Definition isArray (v : JsVal) : bool :=
  match v with
  | JArr _ => true
  | _ => false
  end.

(** The attribute maps of the objects of a document, at every depth. *)
Fixpoint attrsOf (node : JsVal) : list (list (str * str)) :=
  match node with
  | JStr _ => []
  | JObj attrs props =>
      match attrs with
      | Some a => [a]
      | None => []
      end ++ flat_map (fun kv => attrsOf (snd kv)) props
  | JArr items => flat_map attrsOf items
  end.

(** [e] is the element of the box (x1,y1)-(x2,y2) of a node with the
    attributes [attrs]: its centre, floored, and its size, for the
    numbers that doubles hold exactly. *)
Definition boxElement (attrs : list (str * str)) (x1 y1 x2 y2 : Z)
    (e : UiElement) : Prop :=
  text e = attrOr attrs (lit "text") /\
  resourceId e = attrOr attrs (lit "resource-id") /\
  class e = attrOr attrs (lit "class") /\
  ((x1 + x2 <= maxSafe)%Z ->
   x e = Num ((x1 + x2) / 2) /\ width e = Num (x2 - x1)) /\
  ((y1 + y2 <= maxSafe)%Z ->
   y e = Num ((y1 + y2) / 2) /\ height e = Num (y2 - y1)).

(** [e] was pushed by a node with the attributes [attrs]: its bounds
    attribute holds two marked pairs, the first that it holds, and [e] is
    the element of their box. *)
Definition pushedBy (attrs : list (str * str)) (e : UiElement) : Prop :=
  exists front x1 y1 x2 y2 rest,
    attrOr attrs (lit "bounds") = front ++ markedBounds x1 y1 x2 y2 ++ rest /\
    boundsMatch (attrOr attrs (lit "bounds")) = Some (x1, y1, x2, y2) /\
    numeral x1 /\ numeral y1 /\ numeral x2 /\ numeral y2 /\
    boxElement attrs (digitsVal x1) (digitsVal y1) (digitsVal x2)
      (digitsVal y2) e.

(** A string with no white space at either end. *)
Definition clean (s : str) : Prop :=
  s = [] \/
  exists c r r' c', s = c :: r /\ isWhite c = false /\
                    s = r' ++ [c'] /\ isWhite c' = false.

(** A package name as [pm list packages] prints it after [package:]. *)
Definition packageName (n : str) : Prop :=
  n <> [] /\ ~ In nl n /\ trim n = n.

(** The two commands of a layout fetch, as device commands. *)
Definition isFetch (command : str) : bool :=
  str_eqb command (lit "shell uiautomator dump /sdcard/ui.xml") ||
  str_eqb command (lit "pull /sdcard/ui.xml ./ui.xml").

(** The device commands of a trace that are not layout fetches. *)
Definition stepCommands (t : list Event) : list str :=
  filter (fun c => negb (isFetch c)) (adbCalls t).

(** The commands a plan asks for: the normalised actions of its steps,
    without the steps that are skipped. *)
Definition planCommands (steps : list Step) : list str :=
  map (fun s => normalize (primary s))
    (filter (fun s => negb (emptyAction s) &&
                      negb (tapRejected (normalize (primary s)))) steps).

(** An event that is not the command of a step: a toast, a delay, or a
    command of the layout fetch. *)
Definition quietEvent (e : Event) : Prop :=
  match e with
  | EExec c => (exists message, c = toastLine message) \/
               c = dumpLine \/ c = pullLine
  | EDelay _ => True
  | EChat _ => False
  | EAsk => False
  end.

(** An environment in which every command prints [stdout]. *)
Definition answering (stdout : str) : Env unit :=
  {| exec := fun _ w => (Ok stdout, w);
     existsSync := fun _ => false;
     readFileSync := fun _ => Throw (lit "ENOENT");
     unlinkSync := fun w => w;
     parseStringPromise := fun _ => Ok None;
     complete := fun _ w => (Throw (lit "no completion"), w);
     question := fun w => ([], w);
     timeout := fun _ w => w |}.

(** A scripted environment with a file system: the world also says
    whether [./ui.xml] exists; a pull that succeeds creates it and
    [unlinkSync] removes it. *)
Definition scriptedFs (bad : list str) : Env (bool * list str) :=
  {| exec := fun cmdline w =>
       if existsb (str_eqb cmdline) bad
       then (Throw (lit "Command failed: " ++ cmdline), w)
       else if str_eqb cmdline pullLine then (Ok [], (true, snd w))
       else if str_eqb cmdline (lit "adb devices")
       then (Ok (lit "List of devices attached" ++ [nl] ++
                 lit "emulator-5554" ++ [ascii_of_nat 9] ++ lit "device"), w)
       else (Ok [], w);
     existsSync := fun w => fst w;
     readFileSync := fun _ => Ok (lit "<hierarchy/>");
     unlinkSync := fun w => (false, snd w);
     parseStringPromise := fun _ => Ok (Some scriptedDoc);
     complete := fun _ w =>
       match snd w with
       | r :: w' => (Ok r, (fst w, w'))
       | [] => (Throw (lit "no completion"), w)
       end;
     question := fun w => (lit "open the settings", w);
     timeout := fun _ w => w |}.

(** * Properties *)

Unset Implicit Arguments.

(** ** The bounds pattern on well-formed bounds *)

Lemma digitsMore_sound (R : Type) (k : str -> str -> option R) s :
  forall acc r, digitsMore k acc s = Some r ->
  exists p q, p <> [] /\ digitStr p /\ s = p ++ q /\ k (acc ++ p) q = Some r.
Proof.
  induction s as [|c s IH]; intros acc r H; simpl in H; [discriminate|].
  destruct (isDigit c) eqn:Hc; [|discriminate].
  destruct (digitsMore k (acc ++ [c]) s) as [r'|] eqn:Hm.
  - injection H as ->. apply IH in Hm as (p & q & Hp & Hd & -> & Hk).
    exists (c :: p), q. repeat split; try discriminate.
    + constructor; assumption.
    + rewrite <- app_assoc in Hk. exact Hk.
  - exists [c], s. repeat split; try discriminate; auto.
    constructor; [assumption|constructor].
Qed.

Lemma char1_sound (R : Type) c (k : str -> option R) s r :
  char1 c k s = Some r -> exists s', s = c :: s' /\ k s' = Some r.
Proof.
  destruct s as [|d s']; simpl; [discriminate|].
  destruct (Ascii.eqb_spec c d) as [->|]; [|discriminate].
  intros H. exists s'. auto.
Qed.

Lemma chars_sound (R : Type) cs (k : str -> option R) :
  forall s r, chars cs k s = Some r -> exists s', s = cs ++ s' /\ k s' = Some r.
Proof.
  induction cs as [|c cs IH]; intros s r H; cbn [chars] in H.
  - exists s. auto.
  - apply char1_sound in H as (s1 & -> & H). apply IH in H as (s' & -> & H).
    exists s'. auto.
Qed.

(** A match anchored at the head: the string starts with the two pairs
    between their marks, and the groups are the four numbers. *)
Lemma boundsAt_sound s g :
  boundsAt s = Some g ->
  exists p1 p2 p3 p4 rest,
    (digitStr p1 /\ p1 <> []) /\ (digitStr p2 /\ p2 <> []) /\
    (digitStr p3 /\ p3 <> []) /\ (digitStr p4 /\ p4 <> []) /\
    s = markedBounds p1 p2 p3 p4 ++ rest /\ g = (p1, p2, p3, p4).
Proof.
  unfold boundsAt, digits1. intros H.
  apply chars_sound in H as (s0 & -> & H).
  apply digitsMore_sound in H as (p1 & q1 & N1 & D1 & -> & H).
  apply char1_sound in H as (s1 & -> & H).
  apply digitsMore_sound in H as (p2 & q2 & N2 & D2 & -> & H).
  apply chars_sound in H as (s2 & -> & H).
  apply chars_sound in H as (s3 & -> & H).
  apply digitsMore_sound in H as (p3 & q3 & N3 & D3 & -> & H).
  apply char1_sound in H as (s4 & -> & H).
  apply digitsMore_sound in H as (p4 & q4 & N4 & D4 & -> & H).
  apply chars_sound in H as (rest & -> & H).
  injection H as <-.
  exists p1, p2, p3, p4, rest. unfold markedBounds.
  repeat split; try assumption. cbn [lit list_ascii_of_string].
  repeat (rewrite <- app_assoc || rewrite <- app_comm_cons).
  reflexivity.
Qed.

Lemma boundsMatch_at s :
  forall g, boundsMatch s = Some g ->
  exists front s', s = front ++ s' /\ boundsAt s' = Some g.
Proof.
  induction s as [|c s IH]; intros g H.
  - discriminate H.
  - change (match boundsAt (c :: s) with
            | Some g' => Some g'
            | None => boundsMatch s
            end = Some g) in H.
    destruct (boundsAt (c :: s)) eqn:Hb.
    + injection H as ->. exists [], (c :: s). auto.
    + apply IH in H as (front & s' & -> & H). exists (c :: front), s'. auto.
Qed.

Lemma boundsMatch_sound s g :
  boundsMatch s = Some g ->
  exists front p1 p2 p3 p4 rest,
    (digitStr p1 /\ p1 <> []) /\ (digitStr p2 /\ p2 <> []) /\
    (digitStr p3 /\ p3 <> []) /\ (digitStr p4 /\ p4 <> []) /\
    s = front ++ markedBounds p1 p2 p3 p4 ++ rest /\ g = (p1, p2, p3, p4).
Proof.
  intros H. apply boundsMatch_at in H as (front & s' & -> & H).
  apply boundsAt_sound in H as (p1 & p2 & p3 & p4 & rest & H1 & H2 & H3 & H4 & -> & ->).
  exists front, p1, p2, p3, p4, rest. auto 10.
Qed.

Lemma digit_not_mark c : isDigit c = true -> c <> ascii_of_nat 238.
Proof. intros H ->. discriminate H. Qed.

(** A bounds attribute as the dump writes it holds brackets, commas and
    digits, and no U+E001. *)
Lemma boundsText_no_mark x1 y1 x2 y2 :
  digitStr x1 -> digitStr y1 -> digitStr x2 -> digitStr y2 ->
  ~ In (ascii_of_nat 238) (boundsText x1 y1 x2 y2).
Proof.
  unfold digitStr. rewrite !Forall_forall. intros D1 D2 D3 D4.
  unfold boundsText. rewrite !in_app_iff.
  intros [H|[H|[H|[H|[H|[H|[H|[H|H]]]]]]]];
    try (cbn in H; repeat (destruct H as [H|H]; [discriminate H|]); exact H);
    [apply D1 in H|apply D2 in H|apply D3 in H|apply D4 in H];
    exact (digit_not_mark _ H eq_refl).
Qed.

Lemma boundsMatch_wellFormed x1 y1 x2 y2 :
  digitStr x1 -> digitStr y1 -> digitStr x2 -> digitStr y2 ->
  boundsMatch (boundsText x1 y1 x2 y2) = None.
Proof.
  intros D1 D2 D3 D4.
  destruct (boundsMatch (boundsText x1 y1 x2 y2)) as [g|] eqn:H; [|reflexivity].
  exfalso.
  apply boundsMatch_sound in H as (front&p1&p2&p3&p4&rest&_&_&_&_&E&_).
  apply (boundsText_no_mark x1 y1 x2 y2 D1 D2 D3 D4).
  rewrite E. apply in_or_app. right. left. reflexivity.
Qed.

(** What the pattern does match is the two pairs between their marks;
    the brackets of the dump and plain digits and commas are not
    matched. *)
Example boundsMatch_marked :
  boundsMatch (markedBounds (lit "0") (lit "0") (lit "1080") (lit "1920")) =
    Some (lit "0", lit "0", lit "1080", lit "1920") /\
  boundsMatch (lit "[0,0][1080,1920]") = None /\
  boundsMatch (lit "12,345,67") = None.
Proof. repeat split; reflexivity. Qed.

(** An element whose bounds the dump wrote, reached by [traverse], pushes
    nothing. *)
Example traverse_button :
  traverse (JObj (Some [(lit "text", lit "OK");
                        (lit "bounds", lit "[0,0][1080,1920]")]) []) = [].
Proof. reflexivity. Qed.

(** [traverse] applied to an array visits the items that are arrays only:
    an array of element objects yields nothing, whatever their bounds. *)
Example traverse_array_of_objects :
  let bounds := markedBounds (lit "5") (lit "10") (lit "9") (lit "20") in
  traverse (JArr [JObj (Some [(lit "bounds", bounds)]) []]) = [] /\
  traverse (JObj (Some [(lit "bounds", bounds)]) []) =
    [{| text := []; resourceId := []; class := [];
        x := 7; y := 15; width := 4; height := 10 |}].
Proof. split; reflexivity. Qed.

(** C1 (as the code has it): for every bounds attribute of the documented
    form [[x1,y1][x2,y2]], the pattern of [traverse] finds no match, so the
    node pushes no element: traversing it gives what its children give. *)
Theorem wellFormed_bounds_emit_nothing :
  forall (x1 y1 x2 y2 : str) (attrs : list (str * str))
         (props : list (str * JsVal)),
    digitStr x1 -> digitStr y1 -> digitStr x2 -> digitStr y2 ->
    assoc (lit "bounds") attrs = Some (boundsText x1 y1 x2 y2) ->
    ownElements (Some attrs) = [] /\
    traverse (JObj (Some attrs) props) = traverse (JObj None props).
Proof.
  intros x1 y1 x2 y2 attrs props D1 D2 D3 D4 Hb.
  assert (Hown : ownElements (Some attrs) = []).
  { unfold ownElements, attrOr. rewrite Hb.
    rewrite boundsMatch_wellFormed by assumption. reflexivity. }
  split; [exact Hown|].
  cbn [traverse]. rewrite Hown. reflexivity.
Qed.

Lemma wellFormed_bounds_emit_nothing_witness :
  ownElements (Some [(lit "text", lit "OK");
                     (lit "bounds", boundsText (lit "0") (lit "0")
                                      (lit "1080") (lit "1920"))]) = [] /\
  traverse (JObj (Some [(lit "text", lit "OK");
                        (lit "bounds", boundsText (lit "0") (lit "0")
                                         (lit "1080") (lit "1920"))]) []) =
  traverse (JObj None []).
Proof.
  apply (@wellFormed_bounds_emit_nothing (lit "0") (lit "0") (lit "1080") (lit "1920"));
    try (repeat constructor); reflexivity.
Defined.

(** ** The plan parser *)

Lemma parseLines_classify lines :
  forall steps cur,
    (let '(steps', cur') := parseLines lines steps cur in
     steps' ++ finalized cur') =
    steps ++ stepsOfDirectives (map classify lines) cur.
Proof.
  induction lines as [|line rest IH]; intros steps cur.
  - reflexivity.
  - cbn [parseLines map stepsOfDirectives]. unfold classify.
    destruct (isDone (trim line)).
    + apply IH.
    + destruct (startsWith (trim line) (lit "Command:")).
      * cbn [stepsOfDirectives]. rewrite IH. destruct cur; cbn [finalized].
        -- rewrite <- app_assoc. reflexivity.
        -- reflexivity.
      * destruct (startsWith (trim line) (lit "Sleep:")).
        -- cbn [stepsOfDirectives]. destruct cur; apply IH.
        -- apply IH.
Qed.

Lemma stepsOfDirectives_actions ds :
  forall open,
    map primary (stepsOfDirectives ds open) =
    map primary (finalized open) ++ commandActions ds.
Proof.
  induction ds as [|d ds IH]; intros open.
  - cbn. rewrite app_nil_r. reflexivity.
  - destruct d as [action|seconds|]; cbn [stepsOfDirectives commandActions flat_map].
    + rewrite map_app, IH. reflexivity.
    + destruct open as [s|]; rewrite IH; reflexivity.
    + apply IH.
Qed.

(** C6: the parser does what the reply protocol says.  Reading every
    line as a directive, its result is the steps of the directives: a
    [Command:] line finalizes the open step and opens one whose action is
    the trimmed rest of the line, a [Sleep:] line sets the delay of the
    open step to a thousand times its parsed number and is ignored
    without an open step, and the step open at the end is appended.  The
    actions of the steps are the actions of the command lines, in the
    order of the lines. *)
Theorem parseReply_in_line_order :
  forall text : str,
    parseReply text = stepsOfDirectives (map classify (split nl text)) None /\
    map primary (parseReply text) =
      commandActions (map classify (split nl text)).
Proof.
  intros text.
  assert (H : parseReply text =
              stepsOfDirectives (map classify (split nl text)) None).
  { unfold parseReply.
    pose proof (parseLines_classify (split nl text) [] None) as P.
    destruct (parseLines (split nl text) [] None) as [steps cur].
    cbn [app] in P. rewrite <- P. destruct cur; cbn [finalized];
      [reflexivity | rewrite app_nil_r; reflexivity]. }
  split; [exact H|].
  rewrite H, stepsOfDirectives_actions. reflexivity.
Qed.

Example parseReply_tap_then_type :
  parseReply (lit "Command: shell input tap 100 200" ++ [nl] ++
              lit "Sleep: 2" ++ [nl] ++
              lit "Sleep: 5" ++ [nl] ++
              lit "Command: shell input text hi") =
  [ {| primary := lit "shell input tap 100 200"; sleep := Some (Num 5000) |};
    {| primary := lit "shell input text hi"; sleep := None |} ].
Proof. reflexivity. Qed.

(** Beyond [maxSafe] a number is rounded to the nearest double, as it is
    by [parseInt] and by the product with 1000, and a number of more than
    308 digits is an infinity. *)
Example numbers_beyond_maxSafe :
  parseInt (lit "9007199254740993") = Num 9007199254740992 /\
  jsMul (parseInt (lit "9007199254740993")) 1000 = Num 9007199254740992000 /\
  toDouble (10 ^ 23) = Num 99999999999999991611392 /\
  toDouble (10 ^ 309) = Inf false /\
  sleepTruthy (Some (jsMul (toDouble (10 ^ 309)) 1000)) = true.
Proof. vm_compute. repeat split. Qed.

(** ** Escaping the payload of a text-input step *)

Lemma escapeSpaces_no_space s : ~ In " "%char (escapeSpaces s).
Proof.
  unfold escapeSpaces. induction s as [|c s IH]; cbn [flat_map]; [tauto|].
  intros H. apply in_app_or in H as [H|H]; [|exact (IH H)].
  destruct (Ascii.eqb_spec c " "%char) as [->|Hc].
  - cbn in H. destruct H as [H|[H|[]]]; discriminate H.
  - destruct H as [H|[]]. congruence.
Qed.

Lemma escapeSpaces_fixed s : ~ In " "%char s -> escapeSpaces s = s.
Proof.
  unfold escapeSpaces. induction s as [|c s IH]; intros H; [reflexivity|].
  cbn [flat_map]. destruct (Ascii.eqb_spec c " "%char) as [->|Hc].
  - exfalso. apply H. left. reflexivity.
  - cbn. f_equal. apply IH. intros Hin. apply H. right. exact Hin.
Qed.

Lemma escapeSpaces_app a b :
  escapeSpaces (a ++ b) = escapeSpaces a ++ escapeSpaces b.
Proof. unfold escapeSpaces. apply flat_map_app. Qed.

Lemma split_without_separator sep s : ~ In sep s -> split sep s = [s].
Proof.
  induction s as [|c s IH]; intros H; [reflexivity|].
  cbn [split]. destruct (Ascii.eqb_spec c sep) as [->|Hc].
  - exfalso. apply H. left. reflexivity.
  - rewrite IH; [reflexivity|]. intros Hin. apply H. right. exact Hin.
Qed.

Lemma split_at_separator sep a b :
  ~ In sep a -> split sep (a ++ sep :: b) = a :: split sep b.
Proof.
  induction a as [|c a IH]; intros H.
  - cbn [app split]. rewrite Ascii.eqb_refl. reflexivity.
  - cbn [app split]. destruct (Ascii.eqb_spec c sep) as [->|Hc].
    + exfalso. apply H. left. reflexivity.
    + rewrite IH; [reflexivity|]. intros Hin. apply H. right. exact Hin.
Qed.

Ltac no_space :=
  let H := fresh in
  intros H; cbn in H; repeat (destruct H as [H|H]; [discriminate H|]); exact H.

Lemma split_nonempty sep s : split sep s <> [].
Proof.
  destruct s as [|c s]; cbn [split]; [discriminate|].
  destruct (Ascii.eqb c sep); [discriminate|].
  destruct (split sep s); discriminate.
Qed.

Lemma join_cons sep p q ps : join sep (p :: q :: ps) = p ++ sep ++ join sep (q :: ps).
Proof. reflexivity. Qed.

(** Splitting at a character and joining with it gives the string back. *)
Lemma join_split sep s : join [sep] (split sep s) = s.
Proof.
  induction s as [|c s IH]; [reflexivity|].
  cbn [split]. destruct (Ascii.eqb_spec c sep) as [->|Hc].
  - destruct (split sep s) as [|q ps] eqn:Hs; [exfalso; exact (split_nonempty _ _ Hs)|].
    rewrite join_cons, IH. reflexivity.
  - destruct (split sep s) as [|q ps] eqn:Hs; [exfalso; exact (split_nonempty _ _ Hs)|].
    destruct ps as [|q' ps]; [cbn [join] in *; f_equal; exact IH|].
    rewrite join_cons. rewrite join_cons in IH. cbn [app]. f_equal. exact IH.
Qed.

Lemma split_text_action text :
  split " " (lit "shell input text " ++ text) =
  lit "shell" :: lit "input" :: lit "text" :: split " " text.
Proof.
  change (lit "shell input text " ++ text)
    with (lit "shell" ++ " "%char :: lit "input" ++ " "%char ::
          lit "text" ++ " "%char :: text).
  rewrite !split_at_separator by no_space. reflexivity.
Qed.

Lemma normalizeText_escaped e :
  ~ In " "%char e ->
  normalizeText (lit "shell input text " ++ e) = lit "shell input text " ++ e.
Proof.
  intros He.
  assert (Hs : split " " (lit "shell input text " ++ e) =
               [lit "shell"; lit "input"; lit "text"; e]).
  { change (lit "shell input text " ++ e)
      with (lit "shell" ++ " "%char :: lit "input" ++ " "%char ::
            lit "text" ++ " "%char :: e).
    rewrite !split_at_separator by no_space.
    rewrite split_without_separator by exact He. reflexivity. }
  unfold normalizeText.
  change (startsWith (lit "shell input text " ++ e) (lit "shell input text"))
    with true.
  cbv zeta. rewrite Hs.
  cbn [List.length Nat.leb skipn join]. rewrite escapeSpaces_fixed by exact He.
  reflexivity.
Qed.

Lemma startsWith_text_not_adb p :
  startsWith p (lit "shell input text") = true -> stripAdb p = p.
Proof.
  intros H. destruct p as [|c p]; [discriminate H|].
  cbn [startsWith lit list_ascii_of_string] in H.
  destruct (Ascii.eqb_spec "s" c) as [<-|]; [|discriminate H].
  reflexivity.
Qed.

(** C7 (amended): for a text-input step with a payload
    ([parts.length >= 4]), the normalised action is [shell input text]
    followed by the payload, the parts after the third of the action cut
    at single spaces, with every space replaced by [%s]: no space is left
    in it, each space gave one [%s], and normalising the result again
    changes nothing.  When the three words of the action are each
    followed by one space, the payload is all that comes after them. *)
Theorem text_payload_escaped_once :
  forall p : str,
    startsWith p (lit "shell input text") = true ->
    4 <= List.length (split " " p) ->
    let payload := join (lit " ") (skipn 3 (split " " p)) in
    normalize p = lit "shell input text " ++ escapeSpaces payload /\
    ~ In " "%char (escapeSpaces payload) /\
    (forall a b, escapeSpaces (a ++ " "%char :: b) =
                 escapeSpaces a ++ lit "%s" ++ escapeSpaces b) /\
    normalize (normalize p) = normalize p /\
    (forall text, p = lit "shell input text " ++ text -> payload = text).
Proof.
  intros p Hp Hlen payload.
  assert (Hn : normalize p = lit "shell input text " ++ escapeSpaces payload).
  { unfold normalize. rewrite startsWith_text_not_adb by exact Hp.
    unfold normalizeText. rewrite Hp.
    apply Nat.leb_le in Hlen. rewrite Hlen. reflexivity. }
  split; [exact Hn|]. split; [apply escapeSpaces_no_space|]. split; [|split].
  - intros a b. rewrite escapeSpaces_app. unfold escapeSpaces at 2.
    cbn [flat_map]. rewrite Ascii.eqb_refl. reflexivity.
  - rewrite Hn. unfold normalize.
    rewrite startsWith_text_not_adb by reflexivity.
    apply normalizeText_escaped, escapeSpaces_no_space.
  - intros text ->. unfold payload. rewrite split_text_action.
    cbn [skipn]. change (lit " ") with [" "%char]. apply join_split.
Qed.

Lemma text_payload_escaped_once_witness :
  normalize (lit "shell input text open the app") =
    lit "shell input text open%sthe%sapp" /\
  normalize (normalize (lit "shell input text open the app")) =
    normalize (lit "shell input text open the app").
Proof.
  destruct (@text_payload_escaped_once (lit "shell input text open the app"))
    as (H1 & _ & _ & H4 & _).
  - reflexivity.
  - cbn. lia.
  - split; [exact H1 | exact H4].
Defined.

(** The escaping of a step is the same whether or not it was escaped
    before, for every action string. *)
Lemma normalizeText_idempotent p :
  normalizeText (normalizeText p) = normalizeText p.
Proof.
  destruct (startsWith p (lit "shell input text")) eqn:Hp;
    [destruct (4 <=? List.length (split " " p)) eqn:Hl|].
  - assert (E : normalizeText p =
                lit "shell input text " ++
                escapeSpaces (join (lit " ") (skipn 3 (split " " p))))
      by (unfold normalizeText; rewrite Hp, Hl; reflexivity).
    rewrite E. apply normalizeText_escaped, escapeSpaces_no_space.
  - assert (E : normalizeText p = p)
      by (unfold normalizeText; rewrite Hp, Hl; reflexivity).
    rewrite E. exact E.
  - assert (E : normalizeText p = p)
      by (unfold normalizeText; rewrite Hp; reflexivity).
    rewrite E. exact E.
Qed.

(** ** States only grow *)

Create HintDb growing.

Lemma extends_refl W (st : St W) : extends st st.
Proof. split; exists []; rewrite app_nil_r; reflexivity. Qed.

Lemma extends_trans W (a b c : St W) : extends a b -> extends b c -> extends a c.
Proof.
  intros [[t1 T1] [c1 C1]] [[t2 T2] [c2 C2]]. split.
  - exists (t1 ++ t2). rewrite T2, T1, app_assoc. reflexivity.
  - exists (c1 ++ c2). rewrite C2, C1, app_assoc. reflexivity.
Qed.

Lemma extends_emit W e (st : St W) w : extends st (setWorld w (emit e st)).
Proof. split; [exists [e] | exists []; rewrite app_nil_r]; reflexivity. Qed.

Section Growing.
Context {W : Type} (E : Env W).

Lemma growing_ret A (a : A) : growing (@ret W A a).
Proof. intros st. apply extends_refl. Qed.

Lemma growing_throw A msg : growing (@throw W A msg).
Proof. intros st. apply extends_refl. Qed.

Lemma growing_bind A B (m : M W A) (k : A -> M W B) :
  growing m -> (forall a, growing (k a)) -> growing (bind m k).
Proof.
  intros Hm Hk st. unfold bind. specialize (Hm st).
  destruct (m st) as [[a|msg] st1]; cbn [snd] in *; [|exact Hm].
  eapply extends_trans; [exact Hm | apply Hk].
Qed.

Lemma growing_tryCatch A (m : M W A) h :
  growing m -> (forall msg, growing (h msg)) -> growing (tryCatch m h).
Proof.
  intros Hm Hh st. unfold tryCatch. specialize (Hm st).
  destruct (m st) as [[a|msg] st1]; cbn [snd] in *; [exact Hm|].
  eapply extends_trans; [exact Hm | apply Hh].
Qed.

Lemma growing_attempt A (m : M W A) : growing m -> growing (attempt m).
Proof.
  intros Hm st. unfold attempt. specialize (Hm st).
  destruct (m st) as [r st1]. exact Hm.
Qed.

Lemma growing_execP cmdline : growing (execP E cmdline).
Proof.
  intros st. unfold execP. destruct (exec E cmdline (world st)) as [r w].
  apply extends_emit.
Qed.

Lemma growing_push m : growing (push (W:=W) m).
Proof. intros st. split; [exists []; rewrite app_nil_r | exists [m]]; reflexivity. Qed.

Lemma growing_delay ms : growing (delay E ms).
Proof. intros st. apply extends_emit. Qed.

Lemma growing_chat : growing (chat E).
Proof.
  intros st. unfold chat.
  destruct (complete E (conversation st) (world st)) as [r w].
  apply extends_emit.
Qed.

Lemma growing_askGoal : growing (askGoal E).
Proof.
  intros st. unfold askGoal. destruct (question E (world st)) as [a w].
  apply extends_emit.
Qed.

Hint Resolve growing_ret growing_throw growing_execP growing_push
  growing_delay growing_chat growing_askGoal : growing.

Ltac grow :=
  repeat first
    [ solve [auto with growing]
    | apply growing_bind; [|intros ?]
    | apply growing_tryCatch; [|intros ?]
    | apply growing_attempt ].

Lemma growing_executeAdbCommand command : growing (executeAdbCommand E command).
Proof. unfold executeAdbCommand. grow. Qed.

Lemma growing_showToast message : growing (showToast E message).
Proof. unfold showToast. grow. Qed.

Hint Resolve growing_executeAdbCommand growing_showToast : growing.

Lemma growing_fetchLayout : growing (fetchLayout E).
Proof.
  unfold fetchLayout. grow. intros st.
  destruct (existsSync E (world st)); [|apply extends_refl].
  destruct (readFileSync E (world st)); apply extends_refl.
Qed.

Hint Resolve growing_fetchLayout : growing.

Lemma growing_getContext : growing (getContext E).
Proof.
  unfold getContext, getUiTree. grow.
  destruct (absent _); grow.
Qed.

Hint Resolve growing_getContext : growing.

Lemma growing_runStep step next : growing next -> growing (runStep E step next).
Proof.
  intros Hn. unfold runStep. destruct (primary step); [exact Hn|].
  destruct (tapRejected _); grow; try exact Hn.
  match goal with r : Res str |- _ => destruct r end; grow; try exact Hn.
  destruct (sleepTruthy _); grow.
Qed.

Lemma growing_runSteps steps : growing (runSteps E steps).
Proof.
  induction steps as [|step rest IH]; cbn [runSteps]; [grow|].
  apply growing_runStep, IH.
Qed.

Lemma growing_planTurn : growing (planTurn E).
Proof. unfold planTurn. grow. Qed.

Lemma growing_agentLoop fuel : growing (agentLoop E fuel).
Proof.
  unfold agentLoop. induction fuel as [|fuel IH]; cbn [agentLoopWith]; [grow|].
  apply growing_bind; [apply growing_planTurn|intros ai].
  destruct (isDone ai); grow; [apply growing_runSteps|].
  match goal with c : Ctl |- _ => destruct c end; [exact IH|grow].
Qed.

Lemma growing_checkAdbConnection : growing (checkAdbConnection E).
Proof.
  unfold checkAdbConnection.
  apply growing_tryCatch; [|intros msg; grow].
  apply growing_bind; [grow|intros stdout]. cbv zeta.
  destruct (filter _ _); grow.
Qed.

Lemma growing_agentBody fuel : growing (agentBody E fuel).
Proof.
  unfold agentBody.
  apply growing_bind; [grow|intros _].
  apply growing_bind; [apply growing_checkAdbConnection|intros _].
  apply growing_bind; [grow|intros goal].
  destruct goal; grow. apply growing_agentLoop.
Qed.
End Growing.

(** ** What the operations return *)

Lemma bind_ok W A B (m : M W A) (k : A -> M W B) st a st' :
  m st = (Ok a, st') -> bind m k st = k a st'.
Proof. intros H. unfold bind. rewrite H. reflexivity. Qed.

Section Operations.
Context {W : Type} (E : Env W).

Lemma showToast_run message st :
  showToast E message st =
  (Ok tt, setWorld (snd (exec E (toastLine message) (world st)))
            (emit (EExec (toastLine message)) st)).
Proof.
  unfold showToast, tryCatch, bind, execP.
  change (lit "termux-toast -g bottom " ++ [dquote] ++ message ++ [dquote])
    with (toastLine message).
  destruct (exec E (toastLine message) (world st)) as [[out|msg] w]; reflexivity.
Qed.

Lemma executeAdbCommand_run command st :
  executeAdbCommand E command st =
  (match fst (exec E (adbLine command) (world st)) with
   | Ok stdout => Ok (trim stdout)
   | Throw message => Throw (lit "ADB command failed: " ++ message)
   end,
   setWorld (snd (exec E (adbLine command) (world st)))
     (emit (EExec (adbLine command)) st)).
Proof.
  unfold executeAdbCommand, tryCatch, bind, execP.
  change (lit "adb " ++ command) with (adbLine command).
  destruct (exec E (adbLine command) (world st)) as [[out|msg] w]; reflexivity.
Qed.

Lemma getUiTree_returns st :
  exists t st', getUiTree E st = (Ok t, st').
Proof.
  unfold getUiTree, tryCatch.
  destruct (fetchLayout E st) as [[t|msg] st'].
  - exists t, st'. reflexivity.
  - exists None, st'. reflexivity.
Qed.

Lemma getUiTree_caught st msg st' :
  fetchLayout E st = (Throw msg, st') -> getUiTree E st = (Ok None, st').
Proof. intros H. unfold getUiTree, tryCatch. rewrite H. reflexivity. Qed.

Lemma getContext_returns st :
  exists context st', getContext E st = (Ok context, st').
Proof.
  unfold getContext, bind.
  destruct (getUiTree_returns st) as (t & st' & ->).
  destruct (absent t); eexists; eexists; reflexivity.
Qed.

Lemma fetchLayout_keeps st : conversation (snd (fetchLayout E st)) = conversation st.
Proof.
  unfold fetchLayout, bind. rewrite executeAdbCommand_run.
  destruct (fst (exec E _ (world st))); [|reflexivity].
  rewrite executeAdbCommand_run.
  match goal with |- context [fst ?x] => destruct (fst x) end; [|reflexivity].
  match goal with |- context [existsSync E ?w] => destruct (existsSync E w) end;
    [|reflexivity].
  match goal with |- context [readFileSync E ?w] => destruct (readFileSync E w) end;
    reflexivity.
Qed.

Lemma getAllPackages_keeps st :
  conversation (snd (getAllPackages E st)) = conversation st.
Proof.
  unfold getAllPackages, bind. rewrite executeAdbCommand_run.
  destruct (fst (exec E _ (world st))); reflexivity.
Qed.

Lemma getContext_keeps st : conversation (snd (getContext E st)) = conversation st.
Proof.
  unfold getContext, bind, getUiTree, tryCatch.
  pose proof (fetchLayout_keeps st) as H.
  destruct (fetchLayout E st) as [[t|msg] st']; cbn [snd] in H.
  - destruct (absent t); exact H.
  - exact H.
Qed.
End Operations.

Section StepLoop.
Context {W : Type} (E : Env W).

Ltac run_all :=
  repeat match goal with
         | |- context [match ?m ?st with (_, _) => _ end] =>
             destruct (m st) as [[?|?] ?]
         | |- context [let '(_, _) := ?m ?st in _] =>
             destruct (m st) as [[?|?] ?]
         end.

Lemma runStep_ext step (k k' : M W Ctl) :
  (forall st, k st = k' st) -> forall st, runStep E step k st = runStep E step k' st.
Proof.
  intros H st. unfold runStep. destruct (primary step); [apply H|].
  destruct (tapRejected _).
  - unfold bind. destruct (showToast E _ st) as [[?|?] ?]; [apply H|reflexivity].
  - unfold bind, attempt. destruct (executeAdbCommand E _ st) as [[?|?] ?].
    + run_all; try reflexivity; apply H.
    + reflexivity.
Qed.

Lemma runStep_andThen step (k k' : M W Ctl) st :
  runStep E step (andThen k k') st = andThen (runStep E step k) k' st.
Proof.
  unfold runStep. destruct (primary step); [reflexivity|].
  destruct (tapRejected _).
  - unfold andThen, bind. destruct (showToast E _ st) as [[?|?] ?]; reflexivity.
  - unfold andThen, bind, attempt, ret.
    destruct (executeAdbCommand E _ st) as [[?|?] ?].
    + run_all; reflexivity.
    + run_all; reflexivity.
Qed.

Lemma runSteps_app pre post :
  forall st, runSteps E (pre ++ post) st =
             andThen (runSteps E pre) (runSteps E post) st.
Proof.
  induction pre as [|step pre IH]; intros st.
  - reflexivity.
  - cbn [app runSteps]. rewrite <- runStep_andThen.
    apply runStep_ext. exact IH.
Qed.
End StepLoop.

(** *** The first event of a computation *)

Section FirstEvent.
Context {W : Type} (E : Env W).

Lemma emitsFirst_bind A B (e : Event) (m : M W A) (k : A -> M W B) :
  emitsFirst e m -> (forall a, growing (k a)) -> emitsFirst e (bind m k).
Proof.
  intros Hm Hk st. unfold bind. destruct (Hm st) as (t1 & T1).
  destruct (m st) as [[a|msg] st1]; cbn [snd] in *; [|eauto].
  destruct (Hk a st1) as [(t2 & T2) _]. exists (t1 ++ t2).
  rewrite T2, T1, <- app_assoc. reflexivity.
Qed.

Lemma emitsFirst_tryCatch A (e : Event) (m : M W A) h :
  emitsFirst e m -> (forall msg, growing (h msg)) -> emitsFirst e (tryCatch m h).
Proof.
  intros Hm Hh st. unfold tryCatch. destruct (Hm st) as (t1 & T1).
  destruct (m st) as [[a|msg] st1]; cbn [snd] in *; [eauto|].
  destruct (Hh msg st1) as [(t2 & T2) _]. exists (t1 ++ t2).
  rewrite T2, T1, <- app_assoc. reflexivity.
Qed.

Lemma emitsFirst_executeAdbCommand command :
  emitsFirst (EExec (adbLine command)) (executeAdbCommand E command).
Proof. intros st. rewrite executeAdbCommand_run. exists []. reflexivity. Qed.

Lemma emitsFirst_getContext : emitsFirst (EExec dumpLine) (getContext E).
Proof.
  unfold getContext, getUiTree, fetchLayout.
  apply emitsFirst_bind.
  - apply emitsFirst_tryCatch; [|intros msg; apply growing_ret].
    apply emitsFirst_bind; [apply emitsFirst_executeAdbCommand|intros _].
    apply growing_bind; [apply growing_executeAdbCommand|intros _].
    intros st. destruct (existsSync E (world st)); [|apply extends_refl].
    destruct (readFileSync E (world st)); apply extends_refl.
  - intros t. destruct (absent t); apply growing_ret.
Qed.

End FirstEvent.

Section Claims.
Context {W : Type} (E : Env W).

Lemma fetchLayout_fails st :
  fetchFails E (world st) -> exists msg st', fetchLayout E st = (Throw msg, st').
Proof.
  intros H. unfold fetchLayout, bind. rewrite executeAdbCommand_run.
  fold dumpLine.
  destruct H as [msg w1 H1 | out msg w1 w2 H1 H2 | out1 out2 w1 w2 H1 H2 H3
                | out1 out2 msg w1 w2 H1 H2 H3 H4
                | out1 out2 xmlData msg w1 w2 H1 H2 H3 H4 H5];
    rewrite H1; cbn [fst snd]; [eauto| | | |];
    rewrite executeAdbCommand_run; fold pullLine;
    cbn [setWorld emit world]; rewrite H2; cbn [fst snd setWorld world];
    [eauto| | |]; rewrite H3; [eauto| |]; rewrite H4; [eauto|].
  rewrite H5. eauto.
Qed.

(** C8: [getUiTree] returns in every state and never throws, and so
    does [getContext].  When the fetch fails, by the dump command, the
    pull command, the missing file, the read or the parse, [getUiTree]
    returns [null] and [getContext] the string [Unknown], and the turn
    goes on to ask the planner with that context. *)
Theorem layout_fetch_never_raises :
  forall st : St W,
    (exists t st', getUiTree E st = (Ok t, st')) /\
    (exists context st', getContext E st = (Ok context, st')) /\
    (fetchFails E (world st) ->
     fst (getUiTree E st) = Ok None /\
     fst (getContext E st) = Ok (lit "Unknown") /\
     In (EChat (conversation st ++ [contextMessage (lit "Unknown")]))
        (trace (snd (planTurn E st)))).
Proof.
  intros st. split; [apply getUiTree_returns|].
  split; [apply getContext_returns|]. intros Hf.
  destruct (fetchLayout_fails st Hf) as (msg & st1 & Hl).
  pose proof (getUiTree_caught E st _ _ Hl) as Hu.
  assert (Hc : getContext E st = (Ok (lit "Unknown"), st1)).
  { unfold getContext, bind. rewrite Hu. reflexivity. }
  pose proof (fetchLayout_keeps E st) as Hk. rewrite Hl in Hk. cbn [snd] in Hk.
  rewrite Hu, Hc. repeat split.
  unfold planTurn. erewrite bind_ok by exact Hc.
  unfold bind at 1. cbn [push]. unfold bind at 1, chat at 1.
  cbn [conversation world]. rewrite Hk.
  destruct (complete E _ (world st1)) as [[reply|m] w];
    cbn [setWorld emit trace bind push ret snd];
    apply in_or_app; right; left; reflexivity.
Qed.

(** *** One iteration of the step loop *)

Lemma runStep_empty step next :
  emptyAction step = true -> runStep E step next = next.
Proof.
  unfold emptyAction, runStep. destruct (primary step); [reflexivity|discriminate].
Qed.

Lemma runStep_acting step next :
  emptyAction step = false ->
  runStep E step next =
  let p := normalize (primary step) in
  if tapRejected p then
    showToast E (lit "Skipping invalid tap command.") ;; next
  else
    r <- attempt (executeAdbCommand E p) ;;
    match r with
    | Throw _ => showToast E (lit "Command failed: " ++ p) ;; ret Returned
    | Ok _ =>
        showToast E (lit "Executed: " ++ p) ;;
        delay E 1500 ;;
        (if sleepTruthy (sleep step)
         then delay E (sleepMs (sleep step)) else ret tt) ;;
        newContext <- getContext E ;;
        push (contextMessage newContext) ;; next
    end.
Proof.
  unfold emptyAction, runStep. destruct (primary step); [discriminate|reflexivity].
Qed.

Lemma runStep_rejected step next st :
  emptyAction step = false ->
  tapRejected (normalize (primary step)) = true ->
  runStep E step next st =
  next (snd (showToast E (lit "Skipping invalid tap command.") st)).
Proof.
  intros He Hr. rewrite (runStep_acting _ _ He). cbv zeta. rewrite Hr.
  unfold bind. rewrite showToast_run. reflexivity.
Qed.

Lemma runStep_failed step next st msg :
  emptyAction step = false ->
  tapRejected (normalize (primary step)) = false ->
  fst (exec E (adbLine (normalize (primary step))) (world st)) = Throw msg ->
  runStep E step next st =
  (Ok Returned,
   snd (showToast E (lit "Command failed: " ++ normalize (primary step))
          (issued E (normalize (primary step)) st))).
Proof.
  intros He Hr Hx. rewrite (runStep_acting _ _ He). cbv zeta. rewrite Hr.
  unfold bind at 1, attempt.
  rewrite executeAdbCommand_run, Hx. unfold bind, issued.
  rewrite showToast_run. reflexivity.
Qed.

Lemma runStep_succeeded step next st out :
  emptyAction step = false ->
  tapRejected (normalize (primary step)) = false ->
  fst (exec E (adbLine (normalize (primary step))) (world st)) = Ok out ->
  exists st1 context st2,
    extends (issued E (normalize (primary step)) st) st1 /\
    conversation st1 = conversation st /\
    getContext E st1 = (Ok context, st2) /\
    runStep E step next st = next (snd (push (contextMessage context) st2)) /\
    conversation (snd (push (contextMessage context) st2)) =
      conversation st ++ [contextMessage context] /\
    trace st1 =
      trace st ++
      [EExec (adbLine (normalize (primary step)));
       EExec (toastLine (lit "Executed: " ++ normalize (primary step)));
       EDelay 1500] ++
      (if sleepTruthy (sleep step) then [EDelay (sleepMs (sleep step))] else []).
Proof.
  intros He Hr Hx. rewrite (runStep_acting _ _ He). cbv zeta. rewrite Hr.
  unfold bind at 1, attempt.
  rewrite executeAdbCommand_run, Hx.
  set (p := normalize (primary step)). fold (issued E p st).
  unfold bind at 1. rewrite showToast_run.
  unfold bind at 1. cbn [delay].
  set (st'' := setWorld _ (emit (EDelay 1500) _)).
  assert (Hext' : extends (issued E p st) st'')
    by (eapply extends_trans; apply extends_emit).
  assert (Hconv' : conversation st'' = conversation st) by reflexivity.
  assert (Htr' : trace st'' =
                 trace st ++ [EExec (adbLine p);
                              EExec (toastLine (lit "Executed: " ++ p));
                              EDelay 1500]).
  { unfold st''. cbn [setWorld emit trace issued]. rewrite <- !app_assoc.
    reflexivity. }
  clearbody st''.
  assert (Hs : exists st1,
             (if sleepTruthy (sleep step)
              then delay E (sleepMs (sleep step)) else ret tt) st'' = (Ok tt, st1) /\
             extends (issued E p st) st1 /\ conversation st1 = conversation st /\
             trace st1 =
               trace st'' ++
               (if sleepTruthy (sleep step)
                then [EDelay (sleepMs (sleep step))] else [])).
  { destruct (sleepTruthy (sleep step)).
    - eexists. split; [reflexivity|]. split; [|split; [exact Hconv'|reflexivity]].
      eapply extends_trans; [exact Hext' | apply extends_emit].
    - exists st''. split; [reflexivity|]. split; [assumption|].
      split; [assumption|]. rewrite app_nil_r. reflexivity. }
  destruct Hs as (st1 & Hs & Hext1 & Hconv1 & Htr1).
  destruct (getContext_returns E st1) as (context & st2 & Hc).
  exists st1, context, st2.
  split; [exact Hext1|]. split; [exact Hconv1|]. split; [exact Hc|].
  split; [|split].
  - erewrite bind_ok by exact Hs. erewrite bind_ok by exact Hc.
    reflexivity.
  - cbn [push snd conversation]. pose proof (getContext_keeps E st1) as Hk.
    rewrite Hc in Hk. cbn [snd] in Hk. rewrite Hk, Hconv1. reflexivity.
  - rewrite Htr1, Htr', <- app_assoc. reflexivity.
Qed.

Lemma extends_issued p st st' :
  extends (issued E p st) st' ->
  exists t, trace st' = trace st ++ EExec (adbLine p) :: t.
Proof.
  intros [[t Ht] _]. exists t. rewrite Ht. cbn [issued setWorld emit trace].
  rewrite <- app_assoc. reflexivity.
Qed.

Lemma runStep_sends step next st :
  emptyAction step = false ->
  tapRejected (normalize (primary step)) = false ->
  growing next ->
  exists t, trace (snd (runStep E step next st)) =
            trace st ++ EExec (adbLine (normalize (primary step))) :: t.
Proof.
  intros He Hr Hn. apply extends_issued.
  destruct (fst (exec E (adbLine (normalize (primary step))) (world st)))
    as [out|msg] eqn:Hx.
  - destruct (runStep_succeeded step next st out He Hr Hx)
      as (st1 & context & st2 & Hext & _ & Hc & Hrun & _).
    rewrite Hrun.
    eapply extends_trans; [exact Hext|].
    eapply extends_trans; [|apply Hn].
    pose proof (growing_getContext E st1) as Hg. rewrite Hc in Hg.
    eapply extends_trans; [exact Hg | apply growing_push].
  - rewrite (runStep_failed step next st msg He Hr Hx). cbn [snd].
    apply growing_showToast.
Qed.

(** *** The claims on the step loop *)

(** C10: a [Command:] line with nothing after the marker opens a step
    whose action is empty, and the step loop goes past every step with
    an empty action at once: running a plan is running it without those
    steps, so none of them reaches the device or ends the loop. *)
Theorem empty_action_step_is_skipped :
  (forall line rest steps cur,
      trim line = lit "Command:" ->
      parseLines (line :: rest) steps cur =
      parseLines rest (steps ++ finalized cur)
        (Some {| primary := []; sleep := None |})) /\
  (forall step next,
      emptyAction step = true -> runStep E step next = next) /\
  (forall steps st,
      runSteps E steps st =
      runSteps E (filter (fun s => negb (emptyAction s)) steps) st).
Proof.
  split; [|split].
  - intros line rest steps cur H. cbn [parseLines]. rewrite H.
    change (isDone (lit "Command:")) with false.
    change (startsWith (lit "Command:") (lit "Command:")) with true.
    cbv iota zeta.
    change (trim (slice 8 (lit "Command:"))) with (@nil ascii).
    destruct cur; cbn [finalized]; [reflexivity|].
    rewrite app_nil_r. reflexivity.
  - apply runStep_empty.
  - induction steps as [|step rest IH]; intros st; [reflexivity|].
    cbn [runSteps filter]. destruct (emptyAction step) eqn:He; cbn [negb].
    + rewrite (runStep_empty _ _ He). apply IH.
    + cbn [runSteps]. apply runStep_ext. exact IH.
Qed.

(** C2 (as the code has it): the tap test is [parts.length < 4], which
    lets a tap with one coordinate through: the step of the reply
    [Command: shell input tap 100] is not rejected, and its command is
    the next call made, in every environment. *)
Theorem tap_with_one_coordinate_is_sent :
  forall st : St W,
    parseReply (lit "Command: shell input tap 100") =
      [{| primary := lit "shell input tap 100"; sleep := None |}] /\
    tapRejected (normalize (lit "shell input tap 100")) = false /\
    exists t,
      trace (snd (runSteps E
                    (parseReply (lit "Command: shell input tap 100")) st)) =
      trace st ++ EExec (adbLine (lit "shell input tap 100")) :: t.
Proof.
  intros st. split; [reflexivity|]. split; [reflexivity|].
  change (parseReply (lit "Command: shell input tap 100"))
    with [{| primary := lit "shell input tap 100"; sleep := None |}].
  cbn [runSteps].
  apply runStep_sends; [reflexivity | reflexivity | apply growing_ret].
Qed.

(** C3 (amended): a step whose command was issued and succeeded is
    followed by the toast, the settle delay of 1500 ms and the delay the
    step asked for, and then by a fresh observation: it is taken in the
    state these waits ended in, starts with the layout dump, and is
    appended to the conversation as a system message before the rest of
    the loop goes on.  A step that is skipped, and a step whose command
    fails, leave the conversation as it was, and all they add to the
    calls made is a toast, after the command that failed for the
    second: no observation is taken. *)
Theorem observation_follows_successful_step :
  forall (step : Step) (next : M W Ctl) (st : St W),
    let p := normalize (primary step) in
    (emptyAction step = true -> runStep E step next st = next st) /\
    (emptyAction step = false -> tapRejected p = true ->
     exists st1,
       conversation st1 = conversation st /\
       trace st1 =
         trace st ++ [EExec (toastLine (lit "Skipping invalid tap command."))] /\
       runStep E step next st = next st1) /\
    (emptyAction step = false -> tapRejected p = false ->
     forall msg, fst (exec E (adbLine p) (world st)) = Throw msg ->
     exists st1,
       conversation st1 = conversation st /\
       trace st1 =
         trace st ++
         [EExec (adbLine p); EExec (toastLine (lit "Command failed: " ++ p))] /\
       runStep E step next st = (Ok Returned, st1)) /\
    (emptyAction step = false -> tapRejected p = false ->
     forall out, fst (exec E (adbLine p) (world st)) = Ok out ->
     exists st1 context st2,
       extends (issued E p st) st1 /\
       trace st1 =
         trace st ++
         [EExec (adbLine p); EExec (toastLine (lit "Executed: " ++ p));
          EDelay 1500] ++
         (if sleepTruthy (sleep step)
          then [EDelay (sleepMs (sleep step))] else []) /\
       conversation st1 = conversation st /\
       getContext E st1 = (Ok context, st2) /\
       (exists t, trace st2 = trace st1 ++ EExec dumpLine :: t) /\
       runStep E step next st =
         next (snd (push (contextMessage context) st2)) /\
       trace (snd (push (contextMessage context) st2)) = trace st2 /\
       conversation (snd (push (contextMessage context) st2)) =
         conversation st ++ [contextMessage context] /\
       role (contextMessage context) = system).
Proof.
  intros step next st p. repeat split.
  - intros He. rewrite (runStep_empty _ _ He). reflexivity.
  - intros He Hr. eexists.
    split; [|split; [|apply (runStep_rejected _ _ _ He Hr)]];
      rewrite showToast_run; reflexivity.
  - intros He Hr msg Hx. eexists.
    split; [|split; [|apply (runStep_failed _ _ _ _ He Hr Hx)]];
      rewrite showToast_run; [reflexivity|].
    cbn [snd setWorld emit trace issued]. rewrite <- app_assoc. reflexivity.
  - intros He Hr out Hx.
    destruct (runStep_succeeded step next st out He Hr Hx)
      as (st1 & context & st2 & H1 & H2 & H3 & H4 & H5 & H6).
    exists st1, context, st2.
    split; [exact H1|]. split; [exact H6|]. split; [exact H2|].
    split; [exact H3|]. split.
    { destruct (emitsFirst_getContext E st1) as (t & T).
      rewrite H3 in T. exists t. exact T. }
    split; [exact H4|]. split; [reflexivity|]. split; [exact H5|reflexivity].
Qed.

(** *** The claims on the loop *)

Lemma agentLoopWith_turn parse run fuel st aiOutput st1 :
  planTurn E st = (Ok aiOutput, st1) ->
  agentLoopWith E parse run (S fuel) st =
  (if isDone aiOutput then
     showToast E (lit "Execution complete.") ;; ret Done
   else
     c <- run (parse aiOutput) ;;
     match c with
     | Returned => ret CommandFailed
     | Completed => agentLoopWith E parse run fuel
     end) st1.
Proof.
  intros H. cbn [agentLoopWith]. unfold bind at 1. rewrite H. reflexivity.
Qed.

(** C4: when the device command of a step fails, the step loop ends
    with the [return]: the command was issued once, the steps after it
    are not looked at, the conversation is left as it was, and the loop
    of the agent ends with the run, whatever turns it had left. *)
Theorem transport_failure_aborts_run :
  forall (pre : list Step) (step : Step) (post : list Step)
         (st st1 : St W) (msg : str),
    let p := normalize (primary step) in
    let stF := snd (showToast E (lit "Command failed: " ++ p)
                      (issued E p st1)) in
    runSteps E pre st = (Ok Completed, st1) ->
    emptyAction step = false ->
    tapRejected p = false ->
    fst (exec E (adbLine p) (world st1)) = Throw msg ->
    runSteps E (pre ++ step :: post) st = (Ok Returned, stF) /\
    trace stF =
      trace st1 ++
      [EExec (adbLine p); EExec (toastLine (lit "Command failed: " ++ p))] /\
    conversation stF = conversation st1 /\
    (forall fuel st0 aiOutput,
        planTurn E st0 = (Ok aiOutput, st) ->
        isDone aiOutput = false ->
        parseReply aiOutput = pre ++ step :: post ->
        agentLoop E (S fuel) st0 = (Ok CommandFailed, stF)).
Proof.
  intros pre step post st st1 msg p stF Hpre He Hr Hx.
  assert (Hrun : runSteps E (pre ++ step :: post) st = (Ok Returned, stF)).
  { rewrite runSteps_app. unfold andThen. erewrite bind_ok by exact Hpre.
    cbn [runSteps]. apply (runStep_failed _ _ _ msg He Hr Hx). }
  split; [exact Hrun|]. split; [|split].
  - unfold stF. rewrite showToast_run. cbn [snd setWorld emit trace issued].
    rewrite <- app_assoc. reflexivity.
  - unfold stF. rewrite showToast_run. reflexivity.
  - intros fuel st0 aiOutput Hplan Hdone Hparse. unfold agentLoop.
    rewrite (agentLoopWith_turn _ _ _ _ _ _ Hplan), Hdone, Hparse.
    erewrite bind_ok by exact Hrun. reflexivity.
Qed.

Lemma upperChar_letter c d : upperChar c = d -> caseVariant c d.
Proof.
  unfold upperChar, caseVariant. cbv zeta.
  destruct ((97 <=? nat_of_ascii c) && (nat_of_ascii c <=? 122)) eqn:Hn;
    intros H; [right | left; exact H].
  apply andb_true_iff in Hn as [H1 H2].
  apply Nat.leb_le in H1, H2.
  rewrite <- (ascii_nat_embedding c). f_equal.
  rewrite <- H. rewrite nat_ascii_embedding by lia. lia.
Qed.

Lemma str_eqb_eq a : forall b, str_eqb a b = true <-> a = b.
Proof.
  induction a as [|c a IH]; intros [|d b]; cbn [str_eqb];
    try (split; [discriminate | discriminate]); [tauto|].
  rewrite andb_true_iff, Ascii.eqb_eq, IH. split.
  - intros [-> ->]. reflexivity.
  - intros H. injection H as -> ->. tauto.
Qed.

(** A reply is the terminal keyword for [isDone] exactly when it is
    the word DONE with each letter in either case. *)
Lemma isDone_any_case s :
  isDone s = true <-> Forall2 caseVariant s (lit "DONE").
Proof.
  unfold isDone. rewrite str_eqb_eq. split.
  - intros H.
    destruct s as [|c1 [|c2 [|c3 [|c4 [|c5 s]]]]]; try discriminate H.
    injection H as H1 H2 H3 H4.
    repeat (constructor; [apply upperChar_letter; assumption|]).
    constructor.
  - intros H. cbv [lit list_ascii_of_string] in H.
    repeat match goal with
           | H : Forall2 _ _ (_ :: _) |- _ => inversion H; subst; clear H
           | H : Forall2 _ _ [] |- _ => inversion H; subst; clear H
           end.
    repeat match goal with
           | H : caseVariant _ _ |- _ => destruct H as [->| ->]
           end; reflexivity.
Qed.

(** C5: when the trimmed reply of the planner is the word DONE in any
    letter case, the turn ends the run as [Done]: after the reply is
    recorded the only call made is the closing toast, and neither the
    parser nor the step loop has a say, whatever they are. *)
Theorem done_reply_terminates :
  forall (parse : str -> list Step) (run : list Step -> M W Ctl)
         (fuel : nat) (st st1 : St W) (context reply : str) (w : W),
    getContext E st = (Ok context, st1) ->
    complete E (conversation st ++ [contextMessage context]) (world st1) =
      (Ok reply, w) ->
    Forall2 caseVariant (trim reply) (lit "DONE") ->
    exists stF,
      agentLoopWith E parse run (S fuel) st = (Ok Done, stF) /\
      conversation stF =
        conversation st ++
        [contextMessage context;
         {| role := assistant; content := trim reply |}] /\
      trace stF =
        trace st1 ++
        [EChat (conversation st ++ [contextMessage context]);
         EExec (toastLine (lit "Execution complete."))].
Proof.
  intros parse run fuel st st1 context reply w Hc Hr Hd.
  apply isDone_any_case in Hd.
  assert (Hk : conversation st1 = conversation st).
  { pose proof (getContext_keeps E st) as Hk. rewrite Hc in Hk. exact Hk. }
  eexists. split; [|split].
  - cbn [agentLoopWith]. unfold planTurn.
    unfold bind at 1. unfold bind at 1. rewrite Hc.
    unfold bind at 1. cbn [push]. unfold bind at 1, chat at 1.
    cbn [conversation world]. rewrite Hk, Hr.
    unfold bind at 1. cbn [push ret]. rewrite Hd.
    unfold bind. rewrite showToast_run. reflexivity.
  - cbn [snd setWorld emit conversation]. rewrite <- app_assoc.
    reflexivity.
  - cbn [snd setWorld emit trace]. rewrite <- app_assoc. reflexivity.
Qed.

(** C9: the conversation is only ever added to at its end.  [push]
    adds one message; the calls to the device, to the user and to the
    timers leave it as it is; and the step loop, the head of a turn,
    the loop of the agent and the body of [runAgent] leave the
    conversation they start from as the front of the one they end
    with, on every path, the ones that end with an error included. *)
Theorem conversation_append_only :
  (forall m (st : St W),
      conversation (snd (push m st)) = conversation st ++ [m]) /\
  (forall message st,
      conversation (snd (showToast E message st)) = conversation st) /\
  (forall command st,
      conversation (snd (executeAdbCommand E command st)) = conversation st) /\
  (forall st, conversation (snd (getContext E st)) = conversation st) /\
  (forall steps st, exists c,
      conversation (snd (runSteps E steps st)) = conversation st ++ c) /\
  (forall st, exists c,
      conversation (snd (planTurn E st)) = conversation st ++ c) /\
  (forall fuel st, exists c,
      conversation (snd (agentLoop E fuel st)) = conversation st ++ c) /\
  (forall fuel st, exists c,
      conversation (snd (agentBody E fuel st)) = conversation st ++ c) /\
  (forall fuel w, exists c,
      conversation (snd (runAgent E fuel w)) = c /\
      forall packages,
        fst (getAllPackages E {| world := w; trace := [];
                                 conversation := [] |}) = Ok packages ->
        exists c', c = {| role := system;
                          content := systemPrompt packages |} :: c').
Proof.
  repeat split.
  - intros message st. rewrite showToast_run. reflexivity.
  - intros command st. rewrite executeAdbCommand_run. reflexivity.
  - apply getContext_keeps.
  - intros steps st. apply (growing_runSteps E steps st).
  - intros st. apply (growing_planTurn E st).
  - intros fuel st. apply (growing_agentLoop E fuel st).
  - intros fuel st. apply (growing_agentBody E fuel st).
  - intros fuel w. eexists. split; [reflexivity|].
    intros packages Hp. unfold runAgent. unfold bind at 1.
    destruct (getAllPackages E _) as [r st0] eqn:Hg. cbn [fst] in Hp.
    subst r.
    assert (H0 : conversation st0 = []).
    { pose proof (getAllPackages_keeps E
                    {| world := w; trace := []; conversation := [] |}) as H.
      rewrite Hg in H. exact H. }
    unfold bind at 1. cbn [push].
    match goal with
    | |- context [bind ?m ?k ?s] =>
        assert (G : growing (bind m k)); [|destruct (G s) as [_ [c Hc]]]
    end.
    { apply growing_bind.
      - apply growing_tryCatch; [apply growing_agentBody|].
        intros m. apply growing_bind; [apply growing_showToast|].
        intros _. apply growing_ret.
      - intros [| | | |]; try apply growing_ret;
          (apply growing_bind; [|intros _; apply growing_ret]);
          intros s; unfold cleanup;
          (destruct (existsSync E (world s)); [|apply extends_refl]);
          split; exists []; rewrite app_nil_r; reflexivity. }
    exists c. rewrite Hc. cbn [conversation]. rewrite H0. reflexivity.
Qed.
End Claims.

(** ** The statements at work in the scripted environment *)

(** C3 (as stated) fails: a tap without coordinates is skipped, and a
    step whose command fails ends the loop, and in neither case is a
    message added to the conversation: after the toast nothing is asked
    of the device, so no observation is taken at all. *)
Lemma skipped_or_failed_step_not_observed :
  ~ (exists m,
        conversation
          (snd (runSteps (scripted [])
                  [{| primary := lit "shell input tap"; sleep := None |}]
                  (scriptedSt []))) =
        conversation (scriptedSt []) ++ [m]) /\
  ~ (exists m,
        conversation
          (snd (runSteps (scripted [adbLine (lit "shell input tap 1 2")])
                  [{| primary := lit "shell input tap 1 2"; sleep := None |}]
                  (scriptedSt []))) =
        conversation (scriptedSt []) ++ [m]) /\
  runSteps (scripted [])
    [{| primary := lit "shell input tap"; sleep := None |}] (scriptedSt []) =
    (Ok Completed,
     {| world := [];
        trace := [EExec (toastLine (lit "Skipping invalid tap command."))];
        conversation := [] |}) /\
  runSteps (scripted [adbLine (lit "shell input tap 1 2")])
    [{| primary := lit "shell input tap 1 2"; sleep := None |}] (scriptedSt []) =
    (Ok Returned,
     {| world := [];
        trace := [EExec (adbLine (lit "shell input tap 1 2"));
                  EExec (toastLine (lit "Command failed: shell input tap 1 2"))];
        conversation := [] |}).
Proof.
  split; [|split; [|split]];
    try (intros [m H]; vm_compute in H; discriminate H);
    vm_compute; reflexivity.
Qed.

(** C7 (as stated) fails: the code cuts the action at single spaces, not
    at white space.  When a tab follows [text], the third part holds the
    first word of the payload and the code drops it: what is issued is
    not the escaped payload. *)
Lemma payload_after_tab_is_cut :
  let p := lit "shell input text" ++ [ascii_of_nat 9] ++ lit "hello world" in
  startsWith p (lit "shell input text") = true /\
  4 <= List.length (split " " p) /\
  payloadAfterThirdToken p = lit "hello world" /\
  normalize p = lit "shell input text world" /\
  normalize p <>
    lit "shell input text " ++ escapeSpaces (payloadAfterThirdToken p).
Proof.
  cbv zeta. split; [reflexivity|]. split; [cbn; lia|].
  split; [reflexivity|]. split; [reflexivity|].
  intros H. vm_compute in H. discriminate H.
Qed.

Lemma observation_follows_successful_step_witness :
  exists st1 context st2,
    extends (issued (scripted []) (lit "shell input tap 100 200") (scriptedSt [])) st1 /\
    trace st1 =
      [EExec (adbLine (lit "shell input tap 100 200"));
       EExec (toastLine (lit "Executed: shell input tap 100 200"));
       EDelay 1500; EDelay 2000] /\
    conversation st1 = [] /\
    getContext (scripted []) st1 = (Ok context, st2) /\
    (exists t, trace st2 = trace st1 ++ EExec dumpLine :: t) /\
    runStep (scripted [])
      {| primary := lit "shell input tap 100 200"; sleep := Some (Num 2000) |}
      (ret Completed) (scriptedSt []) =
      ret Completed (snd (push (contextMessage context) st2)) /\
    trace (snd (push (contextMessage context) st2)) = trace st2 /\
    conversation (snd (push (contextMessage context) st2)) =
      [contextMessage context] /\
    role (contextMessage context) = system.
Proof.
  exact (proj2 (proj2 (proj2
           (observation_follows_successful_step (scripted [])
              {| primary := lit "shell input tap 100 200";
                 sleep := Some (Num 2000) |}
              (ret Completed) (scriptedSt []))))
           eq_refl eq_refl [] eq_refl).
Defined.

Lemma transport_failure_aborts_run_witness :
  let E := scripted [adbLine (lit "shell input tap 1 2")] in
  let pre := [{| primary := lit "shell input keyevent 3"; sleep := None |}] in
  let step := {| primary := lit "adb shell input tap 1 2"; sleep := None |} in
  let post := [{| primary := lit "shell input tap 3 4"; sleep := None |}] in
  let st1 := snd (runSteps E pre (scriptedSt [])) in
  let stF := snd (showToast E (lit "Command failed: shell input tap 1 2")
                    (issued E (lit "shell input tap 1 2") st1)) in
  runSteps E (pre ++ step :: post) (scriptedSt []) = (Ok Returned, stF) /\
  trace stF =
    trace st1 ++
    [EExec (adbLine (lit "shell input tap 1 2"));
     EExec (toastLine (lit "Command failed: shell input tap 1 2"))] /\
  conversation stF = conversation st1.
Proof.
  intros E pre step post st1 stF.
  destruct (transport_failure_aborts_run E pre step post (scriptedSt []) st1
              (lit "Command failed: adb shell input tap 1 2"))
    as (H1 & H2 & H3 & _); try reflexivity.
  repeat split; assumption.
Defined.

Lemma done_reply_terminates_witness :
  exists stF,
    agentLoopWith (scripted []) (fun _ => []) (fun _ => ret Completed) 1
      (scriptedSt [lit " Done "]) = (Ok Done, stF) /\
    conversation stF =
      [contextMessage []; {| role := assistant; content := lit "Done" |}] /\
    trace stF =
      [EExec dumpLine; EExec pullLine;
       EChat [contextMessage []];
       EExec (toastLine (lit "Execution complete."))].
Proof.
  apply (done_reply_terminates (scripted []) (fun _ => [])
           (fun _ => ret Completed) 0 (scriptedSt [lit " Done "])
           (snd (getContext (scripted []) (scriptedSt [lit " Done "])))
           [] (lit " Done ") []).
  - reflexivity.
  - reflexivity.
  - apply isDone_any_case. reflexivity.
Defined.

Lemma layout_fetch_never_raises_witness :
  fst (getUiTree (scripted [dumpLine]) (scriptedSt [])) = Ok None /\
  fst (getContext (scripted [dumpLine]) (scriptedSt [])) = Ok (lit "Unknown") /\
  In (EChat [contextMessage (lit "Unknown")])
     (trace (snd (planTurn (scripted [dumpLine]) (scriptedSt [])))).
Proof.
  apply (proj2 (proj2 (layout_fetch_never_raises (scripted [dumpLine])
                         (scriptedSt [])))).
  eapply DumpFails. reflexivity.
Defined.

Lemma empty_action_step_is_skipped_witness :
  parseLines [lit "  Command:  "; lit "Sleep: 1"] [] None =
    ([], Some {| primary := []; sleep := Some (Num 1000) |}) /\
  runStep (scripted []) {| primary := []; sleep := Some (Num 1000) |}
    (ret Completed) = ret Completed.
Proof.
  destruct (empty_action_step_is_skipped (scripted [])) as (H1 & H2 & _).
  split.
  - rewrite (H1 (lit "  Command:  ") [lit "Sleep: 1"] [] None eq_refl).
    reflexivity.
  - apply (H2 {| primary := []; sleep := Some (Num 1000) |} (ret Completed)).
    reflexivity.
Defined.

Lemma conversation_append_only_witness :
  exists c',
    conversation (snd (runAgent (scripted []) 1 [lit "DONE"])) =
    {| role := system; content := systemPrompt [] |} :: c'.
Proof.
  destruct (conversation_append_only (scripted []))
    as (_ & _ & _ & _ & _ & _ & _ & _ & H).
  destruct (H 1 [lit "DONE"]) as (c & Hc & Hp).
  destruct (Hp [] eq_refl) as (c' & Hc').
  exists c'. rewrite Hc. exact Hc'.
Defined.

(** The two replies of the specification's scenarios, run to the end.
    The tap with its two coordinates is sent, followed by the settle
    delay and the two seconds asked for; the tap with one coordinate is
    sent as well. *)
Example scenario_tap_and_sleep :
  let out := runAgent (scripted []) 2
               [lit "Command: shell input tap 100 200" ++ [nl] ++ lit "Sleep: 2";
                lit "DONE"] in
  fst out = Ok Done /\
  filter (fun c => startsWith c (lit "shell input")) (adbCalls (trace (snd out))) =
    [lit "shell input tap 100 200"] /\
  flat_map (fun e => match e with EDelay ms => [ms] | _ => [] end)
    (trace (snd out)) = [Num 1500; Num 2000].
Proof. vm_compute. repeat split. Qed.

Example scenario_tap_one_coordinate :
  let out := runAgent (scripted []) 2
               [lit "Command: shell input tap 100" ++ [nl] ++ lit "DONE";
                lit "DONE"] in
  fst out = Ok Done /\
  filter (fun c => startsWith c (lit "shell input")) (adbCalls (trace (snd out))) =
    [lit "shell input tap 100"].
Proof. vm_compute. repeat split. Qed.


(** * Further properties *)

(** ** Strings *)

Lemma dropWhile_spec p s :
  exists w, s = w ++ dropWhile p s /\ Forall (fun c => p c = true) w.
Proof.
  induction s as [|c s (w & Hs & Hw)]; [exists []; split; [reflexivity|constructor]|].
  cbn [dropWhile]. destruct (p c) eqn:Hc.
  - exists (c :: w). split; [cbn; f_equal; exact Hs | constructor; assumption].
  - exists []. split; [reflexivity|constructor].
Qed.

Lemma dropWhile_head p s c r : dropWhile p s = c :: r -> p c = false.
Proof.
  induction s as [|d s IH]; cbn [dropWhile]; [discriminate|].
  destruct (p d) eqn:Hd; [exact IH|]. intros H. injection H as -> _. exact Hd.
Qed.

Lemma dropWhile_stops p c r : p c = false -> dropWhile p (c :: r) = c :: r.
Proof. intros H. cbn [dropWhile]. rewrite H. reflexivity. Qed.

Lemma trim_clean s : clean (trim s).
Proof.
  unfold trim, trimStart, trimEnd.
  destruct (dropWhile isWhite s) as [|c r] eqn:Ht; [left; reflexivity|].
  pose proof (dropWhile_head _ _ _ _ Ht) as Hc.
  destruct (dropWhile_spec isWhite (rev (c :: r))) as (w & Hs & Hw).
  destruct (dropWhile isWhite (rev (c :: r))) as [|c' v] eqn:Hd.
  - exfalso. rewrite app_nil_r in Hs.
    rewrite Forall_forall in Hw. specialize (Hw c).
    rewrite <- Hs, <- in_rev in Hw. rewrite Hw in Hc; [discriminate|left; reflexivity].
  - right. pose proof (dropWhile_head _ _ _ _ Hd) as Hc'.
    apply (f_equal (@rev ascii)) in Hs.
    rewrite rev_involutive, rev_app_distr in Hs. cbn [rev] in *.
    destruct (rev v ++ [c']) as [|e u] eqn:Hu.
    + destruct (rev v); discriminate Hu.
    + cbn [app] in Hs. injection Hs as <- _.
      exists c, u, (rev v), c'. rewrite <- Hu. auto.
Qed.

Lemma clean_trim s : clean s -> trim s = s.
Proof.
  intros [->|(c & r & r' & c' & -> & Hc & Hr & Hc')]; [reflexivity|].
  unfold trim, trimStart, trimEnd. rewrite (dropWhile_stops _ _ _ Hc).
  rewrite Hr, rev_app_distr. cbn [rev app].
  rewrite (dropWhile_stops _ _ _ Hc'). cbn [rev]. rewrite rev_involutive.
  reflexivity.
Qed.

Lemma trim_idempotent s : trim (trim s) = trim s.
Proof. apply clean_trim, trim_clean. Qed.

(** Joining parts that do not hold the separator and splitting again
    gives the parts back. *)
Lemma split_join sep p ps :
  Forall (fun q => ~ In sep q) (p :: ps) ->
  split sep (join [sep] (p :: ps)) = p :: ps.
Proof.
  revert p. induction ps as [|q ps IH]; intros p H.
  - cbn [join]. apply split_without_separator. inversion H; assumption.
  - rewrite join_cons. inversion H as [|? ? Hp Hrest]; subst.
    cbn [app]. rewrite split_at_separator by exact Hp.
    rewrite IH by exact Hrest. reflexivity.
Qed.

Lemma string_of_uint_digits d :
  digitStr (lit (NilEmpty.string_of_uint d)).
Proof.
  induction d; cbn [NilEmpty.string_of_uint lit list_ascii_of_string];
    try constructor; try reflexivity; assumption.
Qed.

Lemma digitStr_no_space s : digitStr s -> ~ In " "%char s.
Proof.
  intros H Hin. unfold digitStr in H. rewrite Forall_forall in H.
  apply H in Hin. discriminate Hin.
Qed.

Lemma showZ_no_space z : ~ In " "%char (showZ z).
Proof.
  unfold showZ, NilZero.string_of_int.
  destruct (Z.to_int z) as [d|d]; unfold NilZero.string_of_uint.
  - destruct d; try (apply digitStr_no_space, string_of_uint_digits).
    cbn. intros [H|[]]. discriminate H.
  - cbn [lit list_ascii_of_string]. intros [H|H]; [discriminate H|].
    revert H. destruct d; try (apply digitStr_no_space, string_of_uint_digits).
    cbn. intros [H|[]]. discriminate H.
Qed.

(** ** What the bounds pattern accepts *)

Lemma digitsMore_cons (R : Type) (k : str -> str -> option R) acc c s :
  digitsMore k acc (c :: s) =
  if isDigit c then
    match digitsMore k (acc ++ [c]) s with
    | Some r => Some r
    | None => k (acc ++ [c]) s
    end
  else None.
Proof. reflexivity. Qed.

Lemma char1_hit (R : Type) c (k : str -> option R) s : char1 c k (c :: s) = k s.
Proof. cbn [char1]. rewrite Ascii.eqb_refl. reflexivity. Qed.

Lemma chars_hit (R : Type) cs (k : str -> option R) s : chars cs k (cs ++ s) = k s.
Proof.
  induction cs as [|c cs IH]; [reflexivity|].
  cbn [chars app]. rewrite char1_hit. exact IH.
Qed.

(** A group takes the whole run of digits when what follows the run is
    not a digit and the rest of the pattern matches there. *)
Lemma digitsMore_longest (R : Type) (k : str -> str -> option R) p :
  forall acc q r,
    digitStr p -> p <> [] ->
    match q with [] => True | c :: _ => isDigit c = false end ->
    k (acc ++ p) q = Some r ->
    digitsMore k acc (p ++ q) = Some r.
Proof.
  induction p as [|c p IH]; intros acc q r Hd Hn Hq Hk; [congruence|].
  inversion Hd as [|? ? Hc Hd']; subst.
  cbn [app]. rewrite digitsMore_cons, Hc.
  destruct p as [|c' p].
  - cbn [app] in *.
    assert (Hnone : digitsMore k (acc ++ [c]) q = None).
    { destruct q as [|d q]; [reflexivity|]. rewrite digitsMore_cons, Hq. reflexivity. }
    rewrite Hnone. exact Hk.
  - rewrite (IH (acc ++ [c]) q r Hd'); [reflexivity|discriminate|exact Hq|].
    rewrite <- app_assoc. exact Hk.
Qed.

Lemma boundsAt_complete x1 y1 x2 y2 rest :
  numeral x1 -> numeral y1 -> numeral x2 -> numeral y2 ->
  boundsAt (markedBounds x1 y1 x2 y2 ++ rest) = Some (x1, y1, x2, y2).
Proof.
  intros [D1 N1] [D2 N2] [D3 N3] [D4 N4]. unfold boundsAt, markedBounds.
  cbn [lit list_ascii_of_string].
  repeat (rewrite <- app_assoc || rewrite <- app_comm_cons).
  rewrite chars_hit. unfold digits1.
  apply digitsMore_longest; [exact D1|exact N1|reflexivity|].
  cbn [app]. rewrite char1_hit. unfold digits1.
  apply digitsMore_longest; [exact D2|exact N2|reflexivity|].
  rewrite !chars_hit. unfold digits1.
  apply digitsMore_longest; [exact D3|exact N3|reflexivity|].
  cbn [app]. rewrite char1_hit. unfold digits1.
  apply digitsMore_longest; [exact D4|exact N4|reflexivity|].
  rewrite chars_hit. reflexivity.
Qed.

Lemma boundsMatch_head s g : boundsAt s = Some g -> boundsMatch s = Some g.
Proof. intros H. destruct s; cbn [boundsMatch]; rewrite H; reflexivity. Qed.

Lemma boundsMatch_found front s :
  boundsAt s <> None -> boundsMatch (front ++ s) <> None.
Proof.
  intros H. induction front as [|c front IH].
  - destruct (boundsAt s) as [g|] eqn:Hg; [|congruence].
    cbn [app]. rewrite (boundsMatch_head _ _ Hg). discriminate.
  - change (match boundsAt (c :: front ++ s) with
            | Some g' => Some g'
            | None => boundsMatch (front ++ s)
            end <> None).
    destruct (boundsAt (c :: front ++ s)); [discriminate|exact IH].
Qed.

(** X1: what the bounds pattern accepts: exactly the strings that hold,
    somewhere, two pairs of numbers with a U+E001 before and after each
    pair; a string that starts with them gives the four numbers, whole,
    as the four groups. *)
Theorem bounds_pattern_accepts :
  (forall s : str,
      boundsMatch s <> None <->
      exists front x1 y1 x2 y2 rest,
        s = front ++ markedBounds x1 y1 x2 y2 ++ rest /\
        numeral x1 /\ numeral y1 /\ numeral x2 /\ numeral y2) /\
  (forall x1 y1 x2 y2 rest : str,
      numeral x1 -> numeral y1 -> numeral x2 -> numeral y2 ->
      boundsMatch (markedBounds x1 y1 x2 y2 ++ rest) = Some (x1, y1, x2, y2)).
Proof.
  split.
  - intros s. split.
    + intros H. destruct (boundsMatch s) as [g|] eqn:Hm; [|congruence].
      apply boundsMatch_sound in Hm
        as (front & p1 & p2 & p3 & p4 & rest & H1 & H2 & H3 & H4 & -> & _).
      exists front, p1, p2, p3, p4, rest. auto.
    + intros (front & x1 & y1 & x2 & y2 & rest & -> & H1 & H2 & H3 & H4).
      apply boundsMatch_found.
      rewrite (boundsAt_complete x1 y1 x2 y2 rest H1 H2 H3 H4). discriminate.
  - intros x1 y1 x2 y2 rest H1 H2 H3 H4.
    apply boundsMatch_head, boundsAt_complete; assumption.
Qed.

(** ** The numbers of an element *)

Lemma digitsVal_nonneg_from ds : forall a, (0 <= a)%Z ->
  (0 <= fold_left (fun acc c => 10 * acc + digitVal c) ds a)%Z.
Proof.
  induction ds as [|c ds IH]; intros a Ha; [exact Ha|].
  cbn [fold_left]. apply IH. unfold digitVal. lia.
Qed.

Lemma digitsVal_nonneg ds : (0 <= digitsVal ds)%Z.
Proof. apply digitsVal_nonneg_from. lia. Qed.

(** Up to [maxSafe] an integer is its own double. *)
Lemma toDouble_safe z : (Z.abs z <= maxSafe)%Z -> toDouble z = Num z.
Proof.
  intros H. unfold toDouble. cbv zeta.
  apply Z.leb_le in H. rewrite H. reflexivity.
Qed.

Lemma toNumber_safe ds : (digitsVal ds <= maxSafe)%Z -> toNumber ds = Num (digitsVal ds).
Proof.
  intros H. apply toDouble_safe. pose proof (digitsVal_nonneg ds). lia.
Qed.

Lemma elementOf_box attrs x1 y1 x2 y2 :
  boxElement attrs (digitsVal x1) (digitsVal y1) (digitsVal x2) (digitsVal y2)
    (elementOf attrs (x1, y1, x2, y2)).
Proof.
  pose proof (digitsVal_nonneg x1). pose proof (digitsVal_nonneg y1).
  pose proof (digitsVal_nonneg x2). pose proof (digitsVal_nonneg y2).
  unfold boxElement. cbn [elementOf text resourceId class x y width height].
  repeat split.
  - rewrite !toNumber_safe by lia. cbn [jsAdd].
    rewrite toDouble_safe by lia. reflexivity.
  - rewrite !toNumber_safe by lia. cbn [jsSub]. apply toDouble_safe. lia.
  - rewrite !toNumber_safe by lia. cbn [jsAdd].
    rewrite toDouble_safe by lia. reflexivity.
  - rewrite !toNumber_safe by lia. cbn [jsSub]. apply toDouble_safe. lia.
Qed.

(** What a node pushes comes from the leftmost match in its own bounds
    attribute. *)
Lemma ownElements_box :
  forall (attrs : list (str * str)) (e : UiElement),
    In e (ownElements (Some attrs)) -> pushedBy attrs e.
Proof.
  intros attrs e H. unfold ownElements in H.
  destruct (boundsMatch (attrOr attrs (lit "bounds"))) as [g|] eqn:Hm; [|destruct H].
  destruct H as [<-|[]].
  pose proof Hm as Hs.
  apply boundsMatch_sound in Hs
    as (front & p1 & p2 & p3 & p4 & rest & H1 & H2 & H3 & H4 & Hb & ->).
  exists front, p1, p2, p3, p4, rest.
  split; [exact Hb|]. split; [exact Hm|].
  split; [exact H1|]. split; [exact H2|]. split; [exact H3|]. split; [exact H4|].
  apply elementOf_box.
Qed.

(** Every element [traverse] returns was pushed by an object of the
    document it was given. *)
Lemma traverse_from (P : list (str * str) -> UiElement -> Prop) :
  (forall attrs e, In e (ownElements (Some attrs)) -> P attrs e) ->
  forall node e, In e (traverse node) ->
    exists attrs, In attrs (attrsOf node) /\ P attrs e.
Proof.
  intros Hown. fix IH 1. intros [s|attrs props|items] e He;
    cbn [traverse attrsOf] in *.
  - destruct He.
  - apply in_app_or in He as [He|He].
    + destruct attrs as [a|]; [|destruct He].
      exists a. split; [left; reflexivity|apply Hown, He].
    + assert (Hp : exists attrs', In attrs' (flat_map (fun kv => attrsOf (snd kv)) props) /\
                                  P attrs' e).
      { induction props as [|[k v] props IHp]; cbn [flat_map] in *; [destruct He|].
        apply in_app_or in He as [He|He].
        - destruct v as [s|a p|children]; cbn [snd] in *; try destruct He.
          assert (Hc : exists attrs', In attrs' (flat_map attrsOf children) /\ P attrs' e).
          { induction children as [|child children IHc]; cbn [flat_map] in *;
              [destruct He|].
            apply in_app_or in He as [He|He].
            - destruct (IH child e He) as (a & Ha & Hpa).
              exists a. split; [apply in_or_app; left; exact Ha|exact Hpa].
            - destruct (IHc He) as (a & Ha & Hpa).
              exists a. split; [apply in_or_app; right; exact Ha|exact Hpa]. }
          destruct Hc as (a & Ha & Hpa).
          exists a. split; [apply in_or_app; left; exact Ha|exact Hpa].
        - destruct (IHp He) as (a & Ha & Hpa).
          exists a. split; [apply in_or_app; right; exact Ha|exact Hpa]. }
      destruct Hp as (a & Ha & Hpa).
      exists a. split; [apply in_or_app; right; exact Ha|exact Hpa].
  - induction items as [|v items IHi]; cbn [flat_map] in *; [destruct He|].
    apply in_app_or in He as [He|He].
    + destruct v as [s|a p|children]; try destruct He.
      cbn [attrsOf].
      assert (Hc : exists attrs', In attrs' (flat_map attrsOf children) /\ P attrs' e).
      { induction children as [|child children IHc]; cbn [flat_map] in *;
          [destruct He|].
        apply in_app_or in He as [He|He].
        - destruct (IH child e He) as (a' & Ha & Hpa).
          exists a'. split; [apply in_or_app; left; exact Ha|exact Hpa].
        - destruct (IHc He) as (a' & Ha & Hpa).
          exists a'. split; [apply in_or_app; right; exact Ha|exact Hpa]. }
      destruct Hc as (a' & Ha & Hpa).
      exists a'. split; [apply in_or_app; left; exact Ha|exact Hpa].
    + destruct (IHi He) as (a & Ha & Hpa).
      exists a. split; [apply in_or_app; right; exact Ha|exact Hpa].
Qed.

Lemma attrsOf_getProp t k v :
  getProp t k = Some v -> incl (attrsOf v) (attrsOf t).
Proof.
  destruct t as [s|attrs props|items]; cbn [getProp]; try discriminate.
  intros H a Ha. cbn [attrsOf]. apply in_or_app. right.
  induction props as [|[k' v'] props IH]; cbn [assoc] in H; [discriminate|].
  cbn [flat_map snd]. apply in_or_app.
  destruct (str_eqb k k'); [injection H as ->; left; exact Ha|right; exact (IH H)].
Qed.

Lemma traverse_array_flat items :
  Forall (fun v => isArray v = false) items -> traverse (JArr items) = [].
Proof.
  intros H. cbn [traverse]. induction H as [|v items Hv _ IH]; [reflexivity|].
  cbn [flat_map]. rewrite IH. destruct v; [reflexivity|reflexivity|discriminate Hv].
Qed.

(** ** What a computation adds to the trace *)

Create HintDb keeps.

Section Keeps.
Context {W : Type} (E : Env W).
Variable I : list Message -> Prop.
Variable P : Event -> Prop.

Lemma keeps_ret A (a : A) : keeps I P (@ret W A a).
Proof.
  intros st H. split; [exact H|]. exists []. rewrite app_nil_r. auto.
Qed.

Lemma keeps_throw A msg : keeps I P (@throw W A msg).
Proof.
  intros st H. split; [exact H|]. exists []. rewrite app_nil_r. auto.
Qed.

Lemma keeps_seq (a b c : St W) t1 t2 :
  trace b = trace a ++ t1 -> Forall P t1 ->
  trace c = trace b ++ t2 -> Forall P t2 ->
  exists t, trace c = trace a ++ t /\ Forall P t.
Proof.
  intros H1 F1 H2 F2. exists (t1 ++ t2).
  rewrite H2, H1, app_assoc. split; [reflexivity|]. apply Forall_app. auto.
Qed.

Lemma keeps_bind A B (m : M W A) (k : A -> M W B) :
  keeps I P m -> (forall a, keeps I P (k a)) -> keeps I P (bind m k).
Proof.
  intros Hm Hk st H. unfold bind. destruct (Hm st H) as (Hi & t1 & T1 & F1).
  destruct (m st) as [[a|msg] st1]; cbn [snd] in *; [|eauto].
  destruct (Hk a st1 Hi) as (Hi2 & t2 & T2 & F2).
  split; [exact Hi2|]. exact (keeps_seq _ _ _ _ _ T1 F1 T2 F2).
Qed.

Lemma keeps_tryCatch A (m : M W A) h :
  keeps I P m -> (forall msg, keeps I P (h msg)) -> keeps I P (tryCatch m h).
Proof.
  intros Hm Hh st H. unfold tryCatch. destruct (Hm st H) as (Hi & t1 & T1 & F1).
  destruct (m st) as [[a|msg] st1]; cbn [snd] in *; [eauto|].
  destruct (Hh msg st1 Hi) as (Hi2 & t2 & T2 & F2).
  split; [exact Hi2|]. exact (keeps_seq _ _ _ _ _ T1 F1 T2 F2).
Qed.

Lemma keeps_attempt A (m : M W A) : keeps I P m -> keeps I P (attempt m).
Proof.
  intros Hm st H. unfold attempt. specialize (Hm st H).
  destruct (m st) as [r st1]. exact Hm.
Qed.

Lemma keeps_execP cmdline : P (EExec cmdline) -> keeps I P (execP E cmdline).
Proof.
  intros Hp st H. unfold execP. destruct (exec E cmdline (world st)) as [r w].
  split; [exact H|]. exists [EExec cmdline]. auto.
Qed.

Lemma keeps_delay ms : P (EDelay ms) -> keeps I P (delay E ms).
Proof. intros Hp st H. split; [exact H|]. exists [EDelay ms]. auto. Qed.

Lemma keeps_askGoal : P EAsk -> keeps I P (askGoal E).
Proof.
  intros Hp st H. unfold askGoal. destruct (question E (world st)) as [a w].
  split; [exact H|]. exists [EAsk]. auto.
Qed.

Lemma keeps_push m :
  (forall c, I c -> I (c ++ [m])) -> keeps I P (push (W:=W) m).
Proof.
  intros Hi st H. split; [exact (Hi _ H)|]. exists []. cbn. rewrite app_nil_r. auto.
Qed.

Lemma keeps_chat : (forall c, I c -> P (EChat c)) -> keeps I P (chat E).
Proof.
  intros Hp st H. unfold chat.
  destruct (complete E (conversation st) (world st)) as [r w].
  split; [exact H|]. exists [EChat (conversation st)]. split; [reflexivity|].
  constructor; [exact (Hp _ H)|constructor].
Qed.

Lemma keeps_executeAdbCommand command :
  P (EExec (adbLine command)) -> keeps I P (executeAdbCommand E command).
Proof.
  intros Hp. unfold executeAdbCommand.
  apply keeps_tryCatch; [|intros msg; apply keeps_throw].
  apply keeps_bind; [apply keeps_execP; exact Hp|intros s; apply keeps_ret].
Qed.

Lemma keeps_showToast message :
  P (EExec (toastLine message)) -> keeps I P (showToast E message).
Proof.
  intros Hp. unfold showToast.
  apply keeps_tryCatch; [|intros msg; apply keeps_ret].
  apply keeps_bind; [apply keeps_execP; exact Hp|intros s; apply keeps_ret].
Qed.

Lemma keeps_getContext :
  P (EExec dumpLine) -> P (EExec pullLine) -> keeps I P (getContext E).
Proof.
  intros Hd Hp. unfold getContext, getUiTree.
  apply keeps_bind.
  - apply keeps_tryCatch; [|intros msg; apply keeps_ret].
    unfold fetchLayout.
    apply keeps_bind; [apply keeps_executeAdbCommand; exact Hd|intros _].
    apply keeps_bind; [apply keeps_executeAdbCommand; exact Hp|intros _].
    intros st H.
    destruct (existsSync E (world st));
      [destruct (readFileSync E (world st))|];
      (split; [exact H|exists []; rewrite app_nil_r; auto]).
  - intros t. destruct (absent t); apply keeps_ret.
Qed.
End Keeps.

Lemma keeps_weaken W A (I : list Message -> Prop) (P P' : Event -> Prop)
    (m : M W A) :
  (forall e, P e -> P' e) -> keeps I P m -> keeps I P' m.
Proof.
  intros Hpp Hm st H. destruct (Hm st H) as (Hi & t & T & F).
  split; [exact Hi|]. exists t. split; [exact T|].
  eapply Forall_impl; [exact Hpp|exact F].
Qed.

Section LoopTrace.
Context {W : Type} (E : Env W).

Lemma stepLoopEvent_toast message : stepLoopEvent (EExec (toastLine message)).
Proof. left. exists message. reflexivity. Qed.

Lemma stepLoopEvent_adb p :
  tapRejected p = false -> normalizeText p = p -> stepLoopEvent (EExec (adbLine p)).
Proof. intros H1 H2. right. exists p. auto. Qed.

Lemma keeps_runStep (I : list Message -> Prop) step next :
  (forall c m, I c -> I (c ++ [m])) ->
  keeps I stepLoopEvent next -> keeps I stepLoopEvent (runStep E step next).
Proof.
  intros Hi Hn. unfold runStep. destruct (primary step) as [|c cs]; [exact Hn|].
  set (p := normalize (c :: cs)).
  destruct (tapRejected p) eqn:Hr.
  - apply keeps_bind; [apply keeps_showToast, stepLoopEvent_toast|intros _; exact Hn].
  - apply keeps_bind.
    + apply keeps_attempt, keeps_executeAdbCommand, stepLoopEvent_adb; [exact Hr|].
      apply normalizeText_idempotent.
    + intros [out|msg].
      * apply keeps_bind; [apply keeps_showToast, stepLoopEvent_toast|intros _].
        apply keeps_bind; [apply keeps_delay; exact Logic.I|intros _].
        apply keeps_bind;
          [destruct (sleepTruthy (sleep step));
           [apply keeps_delay; exact Logic.I|apply keeps_ret]|intros _].
        apply keeps_bind;
          [apply keeps_getContext; apply stepLoopEvent_adb; reflexivity|intros context].
        apply keeps_bind; [apply keeps_push; intros; apply Hi; assumption|intros _].
        exact Hn.
      * apply keeps_bind; [apply keeps_showToast, stepLoopEvent_toast|intros _].
        apply keeps_ret.
Qed.

Lemma keeps_runSteps (I : list Message -> Prop) steps :
  (forall c m, I c -> I (c ++ [m])) -> keeps I stepLoopEvent (runSteps E steps).
Proof.
  intros Hi. induction steps as [|step rest IH]; cbn [runSteps].
  - apply keeps_ret.
  - apply keeps_runStep; assumption.
Qed.

(** X4: what the step loop does to the outside: toasts, delays and device
    commands.  Every device command it issues is in normal form (the
    escaping of text has been applied) and passes the tap test; it never
    calls the planner and never prompts the user. *)
Theorem step_loop_commands :
  forall (steps : list Step) (st : St W),
  exists t,
    trace (snd (runSteps E steps st)) = trace st ++ t /\
    Forall stepLoopEvent t.
Proof.
  intros steps st.
  destruct (keeps_runSteps (fun _ => True) steps (fun _ _ _ => Logic.I) st Logic.I)
    as (_ & H).
  exact H.
Qed.

Lemma stepLoopEvent_plannerCall front e : stepLoopEvent e -> plannerCall front e.
Proof. destruct e; cbn; tauto. Qed.

Lemma keeps_planTurn front :
  keeps (fun c => exists c', c = front ++ c') (plannerCall front) (planTurn E).
Proof.
  intros st (c0 & H0).
  destruct (keeps_getContext E (fun c => c = conversation st) (plannerCall front)
              Logic.I Logic.I st eq_refl) as (Hk & t1 & T1 & F1).
  unfold planTurn, bind, chat.
  destruct (getContext E st) as [[context|msg] st1]; cbn [snd] in *.
  - cbn [push conversation world]. rewrite Hk.
    destruct (complete E _ (world st1)) as [[reply|msg] w];
      cbn [bind push ret snd setWorld emit trace conversation].
    + split.
      * exists (c0 ++ [contextMessage context;
                       {| role := assistant; content := trim reply |}]).
        rewrite H0, <- !app_assoc. reflexivity.
      * exists (t1 ++ [EChat (conversation st ++ [contextMessage context])]).
        rewrite T1, <- app_assoc. split; [reflexivity|].
        apply Forall_app. split; [exact F1|]. constructor; [|constructor].
        exists c0, context. rewrite H0, <- app_assoc. reflexivity.
    + split.
      * exists (c0 ++ [contextMessage context]). rewrite H0, <- app_assoc. reflexivity.
      * exists (t1 ++ [EChat (conversation st ++ [contextMessage context])]).
        rewrite T1, <- app_assoc. split; [reflexivity|].
        apply Forall_app. split; [exact F1|]. constructor; [|constructor].
        exists c0, context. rewrite H0, <- app_assoc. reflexivity.
  - split; [rewrite Hk; exists c0; exact H0|]. exists t1. auto.
Qed.

Lemma extends_front_push (front c : list Message) (m : Message) :
  (exists c', c = front ++ c') -> exists c', c ++ [m] = front ++ c'.
Proof. intros (c' & ->). exists (c' ++ [m]). rewrite app_assoc. reflexivity. Qed.

Lemma keeps_agentLoop front fuel :
  keeps (fun c => exists c', c = front ++ c') (plannerCall front) (agentLoop E fuel).
Proof.
  unfold agentLoop. induction fuel as [|fuel IH]; cbn [agentLoopWith].
  - apply keeps_ret.
  - apply keeps_bind; [apply keeps_planTurn|intros aiOutput].
    destruct (isDone aiOutput).
    + apply keeps_bind; [apply keeps_showToast; exact Logic.I|intros _; apply keeps_ret].
    + apply keeps_bind.
      * apply (keeps_weaken _ _ _ stepLoopEvent);
          [apply stepLoopEvent_plannerCall|].
        apply keeps_runSteps. intros c m. apply extends_front_push.
      * intros [|]; [exact IH|apply keeps_ret].
Qed.

End LoopTrace.

Section Body.
Context {W : Type} (E : Env W).

Lemma keeps_checkAdbConnection (I : list Message -> Prop) (P : Event -> Prop) :
  P (EExec (adbLine (lit "devices"))) -> keeps I P (checkAdbConnection E).
Proof.
  intros Hp. unfold checkAdbConnection.
  apply keeps_tryCatch; [|intros msg; apply keeps_throw].
  apply keeps_bind; [apply keeps_executeAdbCommand; exact Hp|intros stdout].
  cbv zeta. destruct (filter _ _); [apply keeps_throw|apply keeps_ret].
Qed.

Lemma plannerCall_afterGoal front goal e :
  goal <> [] ->
  plannerCall (front ++ [{| role := user; content := goal |}]) e ->
  chatAfterGoal front e.
Proof.
  intros Hg. destruct e as [c|messages| |ms]; cbn; try tauto.
  intros (c & context & ->). exists goal, (c ++ [contextMessage context]).
  split; [exact Hg|]. rewrite <- !app_assoc. reflexivity.
Qed.

(** X6: the planner is only ever called after the user gave a goal that
    is not empty: every call made in the body of [runAgent] carries the
    conversation the body started from, followed by the user message with
    that goal. *)
Theorem planner_called_only_with_goal :
  forall (fuel : nat) (st : St W),
  exists t,
    trace (snd (agentBody E fuel st)) = trace st ++ t /\
    Forall (chatAfterGoal (conversation st)) t.
Proof.
  intros fuel st. set (front := conversation st).
  set (I := fun c : list Message => c = front).
  set (P := chatAfterGoal front).
  assert (Hseq : forall A B (m : M W A) (k : A -> M W B),
             keeps I P m ->
             (forall a s, I (conversation s) ->
                exists t, trace (snd (k a s)) = trace s ++ t /\ Forall P t) ->
             forall s, I (conversation s) ->
               exists t, trace (snd (bind m k s)) = trace s ++ t /\ Forall P t).
  { intros A B m k Hm Hk s Hs. unfold bind.
    destruct (Hm s Hs) as (Hi & t1 & T1 & F1).
    destruct (m s) as [[a|msg] s1]; cbn [snd] in *; [|eauto].
    destruct (Hk a s1 Hi) as (t2 & T2 & F2).
    exact (keeps_seq P _ _ _ _ _ T1 F1 T2 F2). }
  unfold agentBody.
  apply Hseq; [apply keeps_showToast; exact Logic.I| |reflexivity].
  intros _ s1 H1.
  apply Hseq; [apply keeps_checkAdbConnection; exact Logic.I| |exact H1].
  intros _ s2 H2.
  apply Hseq; [apply keeps_askGoal; exact Logic.I| |exact H2].
  intros goal s3 H3. destruct goal as [|g goal].
  - destruct (keeps_bind I P _ _ _ _
                (keeps_showToast E I P (lit "No command provided.") Logic.I)
                (fun _ => keeps_ret I P _ NoGoal) s3 H3) as (_ & H).
    exact H.
  - unfold bind at 1. cbn [push].
    match goal with |- context [agentLoop E fuel ?s] => set (s4 := s) end.
    destruct (keeps_agentLoop E (conversation s4) fuel s4) as (_ & t & T & F);
      [exists []; rewrite app_nil_r; reflexivity|].
    exists t. split; [exact T|].
    eapply Forall_impl; [|exact F]. intros e.
    unfold s4. cbn [conversation]. rewrite H3.
    apply plannerCall_afterGoal. discriminate.
Qed.
End Body.

(** ** What a computation adds to the conversation *)

Section Appends.
Context {W : Type} (E : Env W).
Variable Q : Message -> Prop.

Lemma appends_keeping A (m : M W A) :
  (forall st, conversation (snd (m st)) = conversation st) -> appends Q m.
Proof. intros H st. exists []. rewrite app_nil_r. auto. Qed.

Lemma appends_ret A (a : A) : appends Q (@ret W A a).
Proof. apply appends_keeping. reflexivity. Qed.

Lemma appends_bind A B (m : M W A) (k : A -> M W B) :
  appends Q m -> (forall a, appends Q (k a)) -> appends Q (bind m k).
Proof.
  intros Hm Hk st. unfold bind. destruct (Hm st) as (c1 & C1 & F1).
  destruct (m st) as [[a|msg] st1]; cbn [snd] in *; [|eauto].
  destruct (Hk a st1) as (c2 & C2 & F2). exists (c1 ++ c2).
  rewrite C2, C1, app_assoc. split; [reflexivity|apply Forall_app; auto].
Qed.

Lemma appends_push m : Q m -> appends Q (push (W:=W) m).
Proof. intros H st. exists [m]. auto. Qed.

Lemma appends_showToast message : appends Q (showToast E message).
Proof. apply appends_keeping. intros st. rewrite showToast_run. reflexivity. Qed.

Lemma appends_getContext : appends Q (getContext E).
Proof. apply appends_keeping, getContext_keeps. Qed.

Lemma appends_runStep step next :
  (forall context, Q (contextMessage context)) ->
  appends Q next -> appends Q (runStep E step next).
Proof.
  intros Hq Hn. unfold runStep. destruct (primary step); [exact Hn|].
  destruct (tapRejected _).
  - apply appends_bind; [apply appends_showToast|intros _; exact Hn].
  - apply appends_bind.
    + apply appends_keeping. intros st. unfold attempt.
      rewrite executeAdbCommand_run. reflexivity.
    + intros [out|msg].
      * apply appends_bind; [apply appends_showToast|intros _].
        apply appends_bind; [apply appends_keeping; reflexivity|intros _].
        apply appends_bind;
          [destruct (sleepTruthy _); apply appends_keeping; reflexivity|intros _].
        apply appends_bind; [apply appends_getContext|intros context].
        apply appends_bind; [apply appends_push, Hq|intros _; exact Hn].
      * apply appends_bind; [apply appends_showToast|intros _; apply appends_ret].
Qed.

Lemma appends_runSteps steps :
  (forall context, Q (contextMessage context)) -> appends Q (runSteps E steps).
Proof.
  intros Hq. induction steps as [|step rest IH]; cbn [runSteps].
  - apply appends_ret.
  - apply appends_runStep; assumption.
Qed.
End Appends.

Section LoopMessages.
Context {W : Type} (E : Env W).

Lemma appends_planTurn : appends loopMessage (planTurn E).
Proof.
  unfold planTurn.
  apply appends_bind; [apply appends_getContext|intros context].
  apply appends_bind; [apply appends_push; left; exists context; reflexivity|intros _].
  apply appends_bind.
  - apply appends_keeping. intros st. unfold chat.
    destruct (complete E _ _). reflexivity.
  - intros reply. apply appends_bind; [|intros _; apply appends_ret].
    apply appends_push. right. split; [reflexivity|apply trim_idempotent].
Qed.

(** X7: what the loops add to the conversation.  The step loop adds
    context messages only; the loop of the agent adds context messages
    and assistant messages whose content is the trimmed reply; neither
    adds a user message or a system message of another kind. *)
Theorem loop_messages :
  (forall (steps : list Step) (st : St W), exists c,
      conversation (snd (runSteps E steps st)) = conversation st ++ c /\
      Forall isContextMessage c) /\
  (forall (fuel : nat) (st : St W), exists c,
      conversation (snd (agentLoop E fuel st)) = conversation st ++ c /\
      Forall loopMessage c).
Proof.
  split.
  - intros steps. apply appends_runSteps. intros context. exists context. reflexivity.
  - intros fuel. unfold agentLoop. induction fuel as [|fuel IH]; cbn [agentLoopWith].
    + apply appends_ret.
    + apply appends_bind; [apply appends_planTurn|intros aiOutput].
      destruct (isDone aiOutput).
      * apply appends_bind; [apply appends_showToast|intros _; apply appends_ret].
      * apply appends_bind.
        -- apply appends_runSteps. intros context. left. exists context. reflexivity.
        -- intros [|]; [exact IH|apply appends_ret].
Qed.

End LoopMessages.

(** ** What the planner is given *)




Section PlannerCalls.
Context {W : Type} (E : Env W).



End PlannerCalls.

(** ** Numbers in strings *)

Lemma digit_not_white c : isDigit c = true -> isWhite c = false.
Proof. destruct c as [[] [] [] [] [] [] [] []]; cbv; congruence. Qed.

Lemma digit_not_sign c :
  isDigit c = true -> Ascii.eqb c "-" = false /\ Ascii.eqb c "+" = false.
Proof. destruct c as [[] [] [] [] [] [] [] []]; cbv; intuition congruence. Qed.

Lemma takeWhile_all p s : Forall (fun c => p c = true) s -> takeWhile p s = s.
Proof.
  induction 1 as [|c s Hc _ IH]; [reflexivity|].
  cbn [takeWhile]. rewrite Hc, IH. reflexivity.
Qed.

(** [parseInt] of a number written in digits is the double nearest to
    it: the number itself up to [maxSafe]. *)
Lemma parseInt_digits ds :
  digitStr ds -> ds <> [] -> parseInt ds = toDouble (digitsVal ds).
Proof.
  intros Hd Hn. destruct ds as [|c ds]; [congruence|].
  inversion Hd as [|? ? Hc Hd']; subst.
  unfold parseInt, trimStart.
  rewrite (dropWhile_stops _ _ _ (digit_not_white _ Hc)).
  destruct (digit_not_sign _ Hc) as [-> ->].
  rewrite takeWhile_all by exact Hd. reflexivity.
Qed.

Lemma parseInt_safe ds :
  digitStr ds -> ds <> [] -> (digitsVal ds <= maxSafe)%Z ->
  parseInt ds = Num (digitsVal ds).
Proof.
  intros Hd Hn Hs. rewrite parseInt_digits by assumption.
  apply toDouble_safe. pose proof (digitsVal_nonneg ds). lia.
Qed.

Lemma digitStr_clean ds : digitStr ds -> clean ds.
Proof.
  intros Hd. destruct ds as [|c ds]; [left; reflexivity|right].
  destruct (exists_last (l := c :: ds)) as (r' & c' & Hr); [discriminate|].
  exists c, ds, r', c'. unfold digitStr in Hd. rewrite Forall_forall in Hd.
  repeat split; try assumption.
  - apply digit_not_white, Hd. left. reflexivity.
  - apply digit_not_white, Hd. rewrite Hr. apply in_or_app. right. left. reflexivity.
Qed.

Lemma digitStr_last ds :
  digitStr ds -> ds <> [] ->
  exists r' c', ds = r' ++ [c'] /\ isWhite c' = false.
Proof.
  intros Hd Hn. destruct (exists_last Hn) as (r' & c' & Hr).
  exists r', c'. split; [exact Hr|]. unfold digitStr in Hd.
  rewrite Forall_forall in Hd. apply digit_not_white, Hd.
  rewrite Hr. apply in_or_app. right. left. reflexivity.
Qed.

(** X9: a [Sleep:] line with a number of seconds written in digits,
    whose thousandfold is at most [maxSafe], sets the delay of the open
    step to a thousand times that number, which is not negative, and asks
    for an extra wait exactly when it is not zero. *)
Theorem sleep_line_sets_milliseconds :
  forall (ds : str) (rest : list str) (steps : list Step) (s : Step),
    digitStr ds -> ds <> [] ->
    (digitsVal ds * 1000 <= maxSafe)%Z ->
    parseLines ((lit "Sleep: " ++ ds) :: rest) steps (Some s) =
    parseLines rest steps
      (Some {| primary := primary s;
               sleep := Some (Num (digitsVal ds * 1000)) |}) /\
    (0 <= digitsVal ds * 1000)%Z /\
    (sleepTruthy (Some (Num (digitsVal ds * 1000))) = true <->
     digitsVal ds <> 0%Z).
Proof.
  intros ds rest steps s Hd Hn Hs.
  pose proof (digitsVal_nonneg ds) as Hpos. split; [|split].
  - destruct (digitStr_last ds Hd Hn) as (r' & c' & Hr & Hc').
    assert (Ht : trim (lit "Sleep: " ++ ds) = lit "Sleep: " ++ ds).
    { apply clean_trim. right.
      exists "S"%char, (lit "leep: " ++ ds), (lit "Sleep: " ++ r'), c'.
      split; [reflexivity|]. split; [reflexivity|]. split; [|exact Hc'].
      rewrite Hr at 1. rewrite app_assoc. reflexivity. }
    assert (Ht' : trim (" "%char :: ds) = ds).
    { unfold trim, trimStart. cbn [dropWhile]. change (isWhite " ") with true.
      cbv iota. apply (clean_trim ds), digitStr_clean, Hd. }
    cbn [parseLines]. rewrite Ht.
    change (isDone (lit "Sleep: " ++ ds)) with false.
    change (startsWith (lit "Sleep: " ++ ds) (lit "Command:")) with false.
    change (startsWith (lit "Sleep: " ++ ds) (lit "Sleep:")) with true.
    cbv iota zeta.
    change (slice 6 (lit "Sleep: " ++ ds)) with (" "%char :: ds).
    rewrite Ht', parseInt_safe by (assumption || lia). cbn [jsMul].
    rewrite toDouble_safe by lia. reflexivity.
  - lia.
  - cbn [sleepTruthy]. rewrite negb_true_iff, Z.eqb_neq. lia.
Qed.

(** ** The extractor as a whole *)

(** X2: where the elements come from.  Every element the extractor
    returns, at whatever depth, was pushed by an object of the document
    whose bounds attribute holds two pairs of numbers between U+E001
    marks: the element has the text, resource id and class of that
    object, and for the first such pairs (x1,y1) and (x2,y2), when their
    sums are at most [maxSafe], the centre [floor((x1+x2)/2)],
    [floor((y1+y2)/2)] and the size [x2-x1], [y2-y1].  And an object whose
    bounds attribute is two such pairs pushes one element, ahead of those
    of its children. *)
Theorem extracted_element_geometry :
  (forall (uiTree : JsVal) (e : UiElement),
      In e (extractUiElements (Some uiTree)) ->
      exists attrs, In attrs (attrsOf uiTree) /\ pushedBy attrs e) /\
  (forall (attrs : list (str * str)) (props : list (str * JsVal))
          (x1 y1 x2 y2 : str),
      numeral x1 -> numeral y1 -> numeral x2 -> numeral y2 ->
      assoc (lit "bounds") attrs = Some (markedBounds x1 y1 x2 y2) ->
      exists e,
        traverse (JObj (Some attrs) props) = e :: traverse (JObj None props) /\
        boxElement attrs (digitsVal x1) (digitsVal y1) (digitsVal x2)
          (digitsVal y2) e).
Proof.
  split.
  - intros uiTree e H. unfold extractUiElements in H.
    destruct (truthy uiTree); [|destruct H].
    destruct (getProp uiTree (lit "hierarchy")) as [h|] eqn:Hh; [|destruct H].
    destruct (truthy h); [|destruct H].
    destruct (getProp h (lit "node")) as [n|] eqn:Hn; [|destruct H].
    destruct (truthy n); [|destruct H].
    destruct (traverse_from pushedBy ownElements_box n e H) as (attrs & Ha & Hp).
    exists attrs. split; [|exact Hp].
    apply (attrsOf_getProp _ _ _ Hh), (attrsOf_getProp _ _ _ Hn), Ha.
  - intros attrs props x1 y1 x2 y2 H1 H2 H3 H4 Hb.
    exists (elementOf attrs (x1, y1, x2, y2)). split; [|apply elementOf_box].
    cbn [traverse ownElements app]. unfold attrOr. rewrite Hb.
    rewrite <- (app_nil_r (markedBounds x1 y1 x2 y2)).
    rewrite (boundsMatch_head _ _ (boundsAt_complete x1 y1 x2 y2 [] H1 H2 H3 H4)).
    reflexivity.
Qed.

Lemma extract_flat_array t h items :
  getProp t (lit "hierarchy") = Some h ->
  getProp h (lit "node") = Some (JArr items) ->
  Forall (fun v => isArray v = false) items ->
  extractUiElements (Some t) = [].
Proof.
  intros H1 H2 H3. unfold extractUiElements. rewrite H1, H2.
  rewrite (traverse_array_flat items H3).
  destruct (truthy t), (truthy h), (truthy (JArr items)); reflexivity.
Qed.

(** X3: when the extractor returns nothing.  A [null] tree, a tree
    without [hierarchy], a hierarchy without [node], and a [node] that is
    an array none of whose items is an array itself, as the parser gives
    it, all yield the empty list. *)
Theorem extractUiElements_empty :
  extractUiElements None = [] /\
  (forall t, getProp t (lit "hierarchy") = None ->
             extractUiElements (Some t) = []) /\
  (forall t h, getProp t (lit "hierarchy") = Some h ->
               getProp h (lit "node") = None ->
               extractUiElements (Some t) = []) /\
  (forall t h items,
      getProp t (lit "hierarchy") = Some h ->
      getProp h (lit "node") = Some (JArr items) ->
      Forall (fun v => isArray v = false) items ->
      extractUiElements (Some t) = []).
Proof.
  split; [reflexivity|]. split; [|split].
  - intros t H. unfold extractUiElements. rewrite H. destruct (truthy t); reflexivity.
  - intros t h H1 H2. unfold extractUiElements. rewrite H1, H2.
    destruct (truthy t), (truthy h); reflexivity.
  - apply extract_flat_array.
Qed.

(** ** The device commands *)

Section Device.
Context {W : Type} (E : Env W).

(** X10: [executeAdbCommand] makes one call, of [adb] followed by the
    command.  What it returns is the output without white space at
    either end; when the call fails it throws the message of the failure
    after [ADB command failed: ]. *)
Theorem executeAdbCommand_outcome :
  forall (command : str) (st : St W),
    snd (executeAdbCommand E command st) = issued E command st /\
    match fst (executeAdbCommand E command st) with
    | Ok s =>
        trim s = s /\
        exists stdout, fst (exec E (adbLine command) (world st)) = Ok stdout /\
                       s = trim stdout
    | Throw m =>
        exists message,
          fst (exec E (adbLine command) (world st)) = Throw message /\
          m = lit "ADB command failed: " ++ message
    end.
Proof.
  intros command st. rewrite executeAdbCommand_run. cbn [fst snd].
  split; [reflexivity|].
  destruct (fst (exec E (adbLine command) (world st))) as [stdout|message].
  - split; [apply trim_idempotent|]. exists stdout. auto.
  - exists message. auto.
Qed.

Lemma startsWith_app p s : startsWith (p ++ s) p = true.
Proof.
  induction p as [|c p IH]; [destruct s; reflexivity|].
  cbn [app startsWith]. rewrite Ascii.eqb_refl. exact IH.
Qed.

Lemma slice_app p s : slice (List.length p) (p ++ s) = s.
Proof. unfold slice. induction p as [|c p IH]; [reflexivity|exact IH]. Qed.

Lemma removeFirst_prefix p s : removeFirst p (p ++ s) = s.
Proof.
  destruct (p ++ s) as [|c r] eqn:H.
  - cbn [removeFirst]. destruct p; [|discriminate H].
    cbn in H. subst s. reflexivity.
  - rewrite <- H. 
    assert (Hs : startsWith (p ++ s) p = true) by apply startsWith_app.
    rewrite H in *. cbn [removeFirst]. rewrite Hs. rewrite <- H. apply slice_app.
Qed.

Lemma packages_lines names :
  Forall packageName names ->
  filter (fun l => negb (str_eqb l []))
    (map (fun line => trim (removeFirst (lit "package:") line))
       (map (fun n => lit "package:" ++ n) names)) = names.
Proof.
  induction 1 as [|n names (Hn & _ & Ht) _ IH]; [reflexivity|].
  cbn [map filter]. rewrite removeFirst_prefix, Ht, IH.
  destruct n; [congruence|reflexivity].
Qed.

(** X11: the package list.  When [pm list packages] prints one
    [package:<name>] line per package, [getAllPackages] returns the names
    joined by a comma and a space, in the order printed. *)
Theorem getAllPackages_names :
  forall (names : list str) (st : St W) (stdout : str),
    Forall packageName names ->
    fst (exec E (adbLine (lit "shell pm list packages")) (world st)) = Ok stdout ->
    trim stdout = join [nl] (map (fun n => lit "package:" ++ n) names) ->
    fst (getAllPackages E st) = Ok (join (lit ", ") names).
Proof.
  intros names st stdout Hn Hx Ht. unfold getAllPackages, bind.
  rewrite executeAdbCommand_run, Hx. cbn [fst ret]. rewrite Ht.
  destruct names as [|n names]; [reflexivity|].
  cbn [map].
  rewrite (split_join nl (lit "package:" ++ n) (map (fun n0 => lit "package:" ++ n0) names)).
  - change ((lit "package:" ++ n) :: map (fun n0 => lit "package:" ++ n0) names)
      with (map (fun n0 => lit "package:" ++ n0) (n :: names)).
    rewrite (packages_lines _ Hn). reflexivity.
  - change (Forall (fun q => ~ In nl q) (map (fun n0 => lit "package:" ++ n0) (n :: names))).
    apply Forall_map. eapply Forall_impl; [|exact Hn].
    intros a (_ & Ha & _) Hin. apply in_app_or in Hin as [Hin|Hin]; [|exact (Ha Hin)].
    cbn in Hin. repeat (destruct Hin as [Hin|Hin]; [discriminate Hin|]). exact Hin.
Qed.

Lemma filter_nil_existsb A (f : A -> bool) l :
  match filter f l with [] => existsb f l = false | _ :: _ => existsb f l = true end.
Proof.
  induction l as [|a l IH]; [reflexivity|]. cbn [filter existsb].
  destruct (f a); [reflexivity|exact IH].
Qed.

(** X12: the connection check.  It passes exactly when some line of the
    output of [adb devices], trimmed, ends with [device]; otherwise, and
    when the command itself fails, it throws a message that starts with
    [ADB connection failed: ].  It makes that one call and no other. *)
Theorem checkAdbConnection_outcome :
  forall st : St W,
    snd (checkAdbConnection E st) = issued E (lit "devices") st /\
    fst (checkAdbConnection E st) =
    match fst (exec E (adbLine (lit "devices")) (world st)) with
    | Ok stdout =>
        if existsb (fun line => endsWith (trim line) (lit "device"))
             (split nl (trim stdout))
        then Ok tt
        else Throw (lit "ADB connection failed: No devices found. Ensure the device is connected and authorized.")
    | Throw message =>
        Throw (lit "ADB connection failed: ADB command failed: " ++ message)
    end.
Proof.
  intros st. unfold checkAdbConnection, tryCatch, bind.
  rewrite executeAdbCommand_run.
  destruct (fst (exec E (adbLine (lit "devices")) (world st))) as [stdout|message];
    [|split; reflexivity].
  cbv zeta.
  pose proof (filter_nil_existsb _ (fun line => endsWith (trim line) (lit "device"))
                (split nl (trim stdout))) as H.
  destruct (filter _ _); rewrite H; split; reflexivity.
Qed.

(** X13: a failure of the package listing, which runs before the [try]
    block, rejects [runAgent] with the error of the command: no toast is
    shown, the prompt and the planner are not reached, and the [finally]
    block does not run. *)
Theorem package_listing_failure_rejects :
  forall (fuel : nat) (w : W) (message : str),
    fst (exec E (adbLine (lit "shell pm list packages")) w) = Throw message ->
    runAgent E fuel w =
    (Throw (lit "ADB command failed: " ++ message),
     {| world := snd (exec E (adbLine (lit "shell pm list packages")) w);
        trace := [EExec (adbLine (lit "shell pm list packages"))];
        conversation := [] |}).
Proof.
  intros fuel w message H. unfold runAgent. unfold bind at 1.
  unfold getAllPackages. unfold bind at 1. rewrite executeAdbCommand_run.
  cbn [world]. rewrite H. reflexivity.
Qed.

(** X14: the layout file is gone when a run has ended.  If [unlinkSync]
    removes the file, then in every run that ends by the terminal reply,
    a failed command, a caught error or an empty goal, [./ui.xml] does
    not exist afterwards. *)
Theorem artifact_removed_when_run_ends :
  (forall w, existsSync E (unlinkSync E w) = false) ->
  forall (fuel : nat) (w : W) (r : Outcome) (st : St W),
    runAgent E fuel w = (Ok r, st) ->
    r <> Pending ->
    existsSync E (world st) = false.
Proof.
  intros Hu fuel w r st H Hr. unfold runAgent in H. unfold bind at 1 in H.
  destruct (getAllPackages E _) as [[packages|msg] s0]; [|discriminate H].
  unfold bind at 1 in H. cbn [push] in H. unfold bind at 1 in H.
  destruct (tryCatch _ _ _) as [[r'|msg] s1]; [|discriminate H].
  assert (Hc : forall o, o <> Pending ->
             (cleanup E ;; ret o) s1 = (Ok r, st) ->
             existsSync E (world st) = false).
  { intros o _ Ho. unfold bind, cleanup in Ho.
    destruct (existsSync E (world s1)) eqn:He; cbv [ret] in Ho;
      inversion Ho; subst; [apply Hu|exact He]. }
  destruct r' as [| | |m|];
    [apply (Hc NoGoal)|apply (Hc Done)|apply (Hc CommandFailed)
    |apply (Hc (Caught m))|];
    try discriminate; try exact H.
  cbv [ret] in H. inversion H; subst. congruence.
Qed.

(** X15: the settle delay.  A step whose command succeeded is followed, in
    this order, by the toast, the fixed wait of 1500 ms, the wait the
    step asked for when it is a number other than zero, and then the
    layout dump of the re-observation. *)
Theorem successful_step_settles :
  forall (step : Step) (next : M W Ctl) (st : St W) (out : str),
    let p := normalize (primary step) in
    emptyAction step = false ->
    tapRejected p = false ->
    fst (exec E (adbLine p) (world st)) = Ok out ->
    growing next ->
    exists t,
      trace (snd (runStep E step next st)) =
      trace st ++
      [EExec (adbLine p); EExec (toastLine (lit "Executed: " ++ p));
       EDelay 1500] ++
      (if sleepTruthy (sleep step) then [EDelay (sleepMs (sleep step))] else []) ++
      EExec dumpLine :: t.
Proof.
  intros step next st out p He Hr Hx Hn.
  rewrite (runStep_acting E step next He). cbv zeta. fold p. rewrite Hr.
  unfold bind at 1, attempt. rewrite executeAdbCommand_run, Hx.
  unfold bind at 1. rewrite showToast_run. unfold bind at 1. cbn [delay].
  set (s2 := setWorld _ (emit (EDelay 1500) _)).
  assert (T2 : trace s2 = trace st ++ [EExec (adbLine p);
                 EExec (toastLine (lit "Executed: " ++ p)); EDelay 1500]).
  { unfold s2. cbn [setWorld emit trace]. rewrite <- !app_assoc. reflexivity. }
  clearbody s2.
  assert (Hs : exists s3, (if sleepTruthy (sleep step)
                           then delay E (sleepMs (sleep step)) else ret tt) s2 = (Ok tt, s3) /\
                trace s3 = trace s2 ++
                  (if sleepTruthy (sleep step) then [EDelay (sleepMs (sleep step))] else [])).
  { destruct (sleepTruthy (sleep step)).
    - eexists. split; reflexivity.
    - exists s2. split; [reflexivity|]. rewrite app_nil_r. reflexivity. }
  destruct Hs as (s3 & Hs & T3). unfold bind at 1. rewrite Hs.
  destruct (emitsFirst_bind _ _ (EExec dumpLine) (getContext E)
              (fun newContext => push (contextMessage newContext) ;; next)
              (emitsFirst_getContext E)
              (fun c => growing_bind _ _ _ _ (growing_push _)
                          (fun _ => Hn)) s3) as (t & T).
  exists t. rewrite T, T3, T2, <- !app_assoc. reflexivity.
Qed.

(** X16: an action outside the three shapes the loop knows goes to the
    device as it is: a step whose action does not start with [adb],
    [shell input text] or [shell input tap] has that very action issued
    as its command. *)
Theorem other_action_passes_through :
  forall (step : Step) (next : M W Ctl) (st : St W),
    emptyAction step = false ->
    startsWith (primary step) (lit "adb") = false ->
    startsWith (primary step) (lit "shell input text") = false ->
    startsWith (primary step) (lit "shell input tap") = false ->
    growing next ->
    normalize (primary step) = primary step /\
    exists t,
      trace (snd (runStep E step next st)) =
      trace st ++ EExec (adbLine (primary step)) :: t.
Proof.
  intros step next st He Ha Ht Hp Hn.
  assert (Hnorm : normalize (primary step) = primary step).
  { unfold normalize, stripAdb. rewrite Ha. unfold normalizeText. rewrite Ht.
    reflexivity. }
  split; [exact Hnorm|].
  assert (Htap : tapRejected (normalize (primary step)) = false).
  { rewrite Hnorm. unfold tapRejected. rewrite Hp. reflexivity. }
  destruct (runStep_sends E step next st He Htap Hn) as (t & T).
  rewrite Hnorm in T. exists t. exact T.
Qed.
End Device.

(** ** The gesture helpers *)

(** X17: [inputText] and the step loop agree.  The command [inputText]
    builds for a text is the normal form the step loop gives the action
    [shell input text <text>], for every text, and normalising that
    command leaves it as it is: text escaped by the helper is not escaped
    a second time by the loop. *)
Theorem inputText_agrees_with_step_loop :
  forall text : str,
    normalize (lit "shell input text " ++ text) = inputTextCommand text /\
    normalize (inputTextCommand text) = inputTextCommand text.
Proof.
  intros text.
  assert (H : normalize (lit "shell input text " ++ text) = inputTextCommand text).
  { unfold normalize. rewrite startsWith_text_not_adb by reflexivity.
    unfold normalizeText.
    change (startsWith (lit "shell input text " ++ text) (lit "shell input text"))
      with true.
    cbv zeta. rewrite split_text_action.
    destruct (split " " text) as [|q ps] eqn:Hs;
      [exfalso; exact (split_nonempty _ _ Hs)|].
    cbn [List.length Nat.leb skipn]. rewrite <- Hs.
    change (lit " ") with [" "%char]. rewrite join_split. reflexivity. }
  split; [exact H|].
  unfold inputTextCommand. cbv zeta. unfold normalize.
  rewrite startsWith_text_not_adb by reflexivity.
  apply normalizeText_escaped, escapeSpaces_no_space.
Qed.

Lemma split_tap_action a b :
  ~ In " "%char a -> ~ In " "%char b ->
  split " " (lit "shell input tap " ++ a ++ lit " " ++ b) =
  [lit "shell"; lit "input"; lit "tap"; a; b].
Proof.
  intros Ha Hb.
  change (lit "shell input tap " ++ a ++ lit " " ++ b)
    with (lit "shell" ++ " "%char :: lit "input" ++ " "%char ::
          lit "tap" ++ " "%char :: a ++ " "%char :: b).
  rewrite !split_at_separator by (try no_space; assumption).
  rewrite split_without_separator by exact Hb. reflexivity.
Qed.

(** X18: the commands that [tap] and [swipe] build, given as actions to
    the step loop, are issued as they are: normalisation does not change
    them, and the tap has its two coordinates, five parts in all, so the
    tap test lets it through. *)
Theorem gesture_commands_accepted :
  (forall x y : Z,
      split " " (tapCommand x y) =
        [lit "shell"; lit "input"; lit "tap"; showZ x; showZ y] /\
      tapRejected (tapCommand x y) = false /\
      normalize (tapCommand x y) = tapCommand x y) /\
  (forall fromX fromY toX toY duration : Z,
      tapRejected (swipeCommand fromX fromY toX toY duration) = false /\
      normalize (swipeCommand fromX fromY toX toY duration) =
        swipeCommand fromX fromY toX toY duration).
Proof.
  split.
  - intros x y.
    assert (Hs : split " " (tapCommand x y) =
                 [lit "shell"; lit "input"; lit "tap"; showZ x; showZ y])
      by (apply split_tap_action; apply showZ_no_space).
    split; [exact Hs|]. split.
    + unfold tapRejected. rewrite Hs. reflexivity.
    + reflexivity.
  - intros. split; reflexivity.
Qed.

(** ** The screen size *)

Lemma sizeMatch_head s g : sizeAt s = Some g -> sizeMatch s = Some g.
Proof. intros H. destruct s; cbn [sizeMatch]; rewrite H; reflexivity. Qed.

Lemma sizeMatch_none s : ~ In "P"%char s -> sizeMatch s = None.
Proof.
  induction s as [|c s IH]; intros H; [reflexivity|].
  assert (Hat : sizeAt (c :: s) = None).
  { unfold sizeAt. cbn [startsWith lit list_ascii_of_string].
    destruct (Ascii.eqb_spec "P" c) as [<-|]; [|reflexivity].
    exfalso. apply H. left. reflexivity. }
  cbn [sizeMatch]. rewrite Hat. apply IH. intros Hin. apply H. right. exact Hin.
Qed.

Section Screen.
Context {W : Type} (E : Env W).

(** X19: the screen size.  When the output of [wm size] starts with
    [Physical size: <w>x<h>], the two numbers at most [maxSafe],
    [getScreenSize] returns the two numbers; when the output holds no
    capital P, so no such line, it throws [Unable to get screen size.];
    when the command fails it throws the error of the command. *)
Theorem getScreenSize_outcome :
  forall st : St W,
    (forall stdout w h rest,
        fst (exec E (adbLine (lit "shell wm size")) (world st)) = Ok stdout ->
        trim stdout = lit "Physical size: " ++ w ++ "x"%char :: h ++ rest ->
        digitStr w -> w <> [] -> digitStr h -> h <> [] ->
        (digitsVal w <= maxSafe)%Z -> (digitsVal h <= maxSafe)%Z ->
        match rest with [] => True | c :: _ => isDigit c = false end ->
        fst (getScreenSize E st) = Ok (Num (digitsVal w), Num (digitsVal h))) /\
    (forall stdout,
        fst (exec E (adbLine (lit "shell wm size")) (world st)) = Ok stdout ->
        ~ In "P"%char stdout ->
        fst (getScreenSize E st) = Throw (lit "Unable to get screen size.")) /\
    (forall message,
        fst (exec E (adbLine (lit "shell wm size")) (world st)) = Throw message ->
        fst (getScreenSize E st) = Throw (lit "ADB command failed: " ++ message)).
Proof.
  intros st. split; [|split].
  - intros stdout w h rest Hx Ht Dw Nw Dh Nh Sw Sh Hr.
    unfold getScreenSize, bind. rewrite executeAdbCommand_run, Hx. cbn [fst].
    rewrite Ht.
    rewrite (sizeMatch_head _ (w, h)).
    + cbn [ret fst]. rewrite !parseInt_safe by assumption. reflexivity.
    + unfold sizeAt.
      rewrite (startsWith_app (lit "Physical size: ")).
      change (slice 15 (lit "Physical size: " ++ w ++ "x"%char :: h ++ rest))
        with (w ++ "x"%char :: h ++ rest).
      cbv iota. unfold digits1.
      apply digitsMore_longest; [exact Dw|exact Nw|reflexivity|].
      rewrite char1_hit. unfold digits1.
      apply digitsMore_longest; [exact Dh|exact Nh|exact Hr|reflexivity].
  - intros stdout Hx Hp.
    unfold getScreenSize, bind. rewrite executeAdbCommand_run, Hx. cbn [fst].
    rewrite sizeMatch_none; [reflexivity|].
    intros Hin. apply Hp.
    destruct (dropWhile_spec isWhite stdout) as (w1 & Hs1 & _).
    destruct (dropWhile_spec isWhite (rev (dropWhile isWhite stdout))) as (w2 & Hs2 & _).
    unfold trim, trimEnd, trimStart in Hin.
    rewrite Hs1. apply in_or_app. right. apply in_rev. rewrite Hs2.
    apply in_or_app. right. apply in_rev. exact Hin.
  - intros message Hx.
    unfold getScreenSize, bind. rewrite executeAdbCommand_run, Hx. reflexivity.
Qed.
End Screen.

(** ** More on the parser and on the context *)

Lemma classify_command_trimmed line action :
  classify line = DCommand action -> trim action = action.
Proof.
  unfold classify. destruct (isDone (trim line)); [discriminate|].
  destruct (startsWith (trim line) (lit "Command:")).
  - intros H. injection H as <-. apply trim_idempotent.
  - destruct (startsWith (trim line) (lit "Sleep:")); discriminate.
Qed.

Lemma commandActions_length ds : List.length (commandActions ds) <= List.length ds.
Proof.
  induction ds as [|d ds IH]; [reflexivity|].
  unfold commandActions in *. cbn [flat_map]. rewrite length_app.
  destruct d; cbn [List.length]; lia.
Qed.

Lemma parseReply_actions text :
  map primary (parseReply text) = commandActions (map classify (split nl text)).
Proof.
  unfold parseReply.
  pose proof (parseLines_classify (split nl text) [] None) as P.
  destruct (parseLines (split nl text) [] None) as [steps cur].
  cbn [app] in P.
  assert (H : match cur with Some s => steps ++ [s] | None => steps end =
              steps ++ finalized cur)
    by (destruct cur; cbn [finalized]; [reflexivity|rewrite app_nil_r; reflexivity]).
  rewrite H, P, stepsOfDirectives_actions. reflexivity.
Qed.

(** X22: the steps of a reply.  The action of every parsed step has no
    white space at either end, and a reply gives no more steps than it
    has lines. *)
Theorem parsed_steps_trimmed :
  forall text : str,
    Forall (fun s => trim (primary s) = primary s) (parseReply text) /\
    List.length (parseReply text) <= List.length (split nl text).
Proof.
  intros text. pose proof (parseReply_actions text) as H. split.
  - apply Forall_forall. intros s Hs.
    assert (Hin : In (primary s) (commandActions (map classify (split nl text))))
      by (rewrite <- H; apply in_map; exact Hs).
    unfold commandActions in Hin. apply in_flat_map in Hin as (d & Hd & Ha).
    apply in_map_iff in Hd as (line & Hc & _).
    destruct d as [action|seconds|]; [|destruct Ha|destruct Ha].
    destruct Ha as [Ha|[]]. rewrite <- Ha.
    exact (classify_command_trimmed line action Hc).
  - rewrite <- (length_map primary), H.
    etransitivity; [apply commandActions_length|]. rewrite length_map. reflexivity.
Qed.

Section Observation.
Context {W : Type} (E : Env W).

(** X20: [showToast] never throws: whether the toast command succeeds or
    fails it returns normally, after that one call, and leaves the
    conversation alone. *)
Theorem showToast_never_throws :
  forall (message : str) (st : St W),
    fst (showToast E message st) = Ok tt /\
    trace (snd (showToast E message st)) =
      trace st ++ [EExec (toastLine message)] /\
    conversation (snd (showToast E message st)) = conversation st.
Proof. intros message st. rewrite showToast_run. repeat split. Qed.

(** X21: the context of a dump as the parser gives it.  When the fetch
    succeeds with a tree whose [hierarchy.node] is an array of elements,
    none of them an array, [getContext] returns the empty string: the
    planner is told nothing of what is on the screen. *)
Theorem context_of_parsed_dump_is_empty :
  forall (st st' : St W) (t h : JsVal) (items : list JsVal),
    fetchLayout E st = (Ok (Some t), st') ->
    getProp t (lit "hierarchy") = Some h ->
    getProp h (lit "node") = Some (JArr items) ->
    Forall (fun v => isArray v = false) items ->
    getContext E st = (Ok [], st').
Proof.
  intros st st' t h items Hf H1 H2 H3.
  unfold getContext, bind, getUiTree, tryCatch. rewrite Hf.
  assert (Ht : absent (Some t) = false).
  { destruct t; cbn in H1; try discriminate H1. reflexivity. }
  rewrite Ht.
  rewrite (extract_flat_array t h items H1 H2 H3). reflexivity.
Qed.
End Observation.

(** ** The order of the commands *)

Lemma stepCommands_app t1 t2 :
  stepCommands (t1 ++ t2) = stepCommands t1 ++ stepCommands t2.
Proof.
  unfold stepCommands, adbCalls. rewrite flat_map_app, filter_app. reflexivity.
Qed.

Lemma stepCommands_quiet t : Forall quietEvent t -> stepCommands t = [].
Proof.
  induction 1 as [|e t He _ IH]; [reflexivity|].
  change (e :: t) with ([e] ++ t). rewrite stepCommands_app, IH, app_nil_r.
  destruct e as [c|m| |ms]; [|destruct He|destruct He|reflexivity].
  destruct He as [(message & ->)|[->| ->]]; reflexivity.
Qed.

Lemma stepCommands_command p t :
  isFetch p = false -> stepCommands (EExec (adbLine p) :: t) = p :: stepCommands t.
Proof.
  intros Hp. change (EExec (adbLine p) :: t) with ([EExec (adbLine p)] ++ t).
  rewrite stepCommands_app. unfold stepCommands at 1, adbCalls, adbLine.
  cbn [flat_map]. rewrite (startsWith_app (lit "adb ")).
  change (slice 4 (lit "adb " ++ p)) with p. cbn [app filter]. rewrite Hp.
  reflexivity.
Qed.

Section Order.
Context {W : Type} (E : Env W).

Lemma quiet_toast message : quietEvent (EExec (toastLine message)).
Proof. left. exists message. reflexivity. Qed.

Lemma runStep_succeeded_trace step next st out :
  emptyAction step = false ->
  tapRejected (normalize (primary step)) = false ->
  fst (exec E (adbLine (normalize (primary step))) (world st)) = Ok out ->
  exists tmid s',
    runStep E step next st = next s' /\
    trace s' = trace st ++ EExec (adbLine (normalize (primary step))) :: tmid /\
    Forall quietEvent tmid.
Proof.
  intros He Hr Hx. rewrite (runStep_acting E step next He). cbv zeta. rewrite Hr.
  unfold bind at 1, attempt. rewrite executeAdbCommand_run, Hx.
  set (p := normalize (primary step)).
  unfold bind at 1. rewrite showToast_run. unfold bind at 1. cbn [delay].
  set (s2 := setWorld _ (emit (EDelay 1500) _)).
  assert (T2 : trace s2 = trace st ++ EExec (adbLine p) ::
                 [EExec (toastLine (lit "Executed: " ++ p)); EDelay 1500]).
  { unfold s2. cbn [setWorld emit trace]. rewrite <- !app_assoc. reflexivity. }
  clearbody s2.
  assert (Hs : exists s3 t3,
             (if sleepTruthy (sleep step)
              then delay E (sleepMs (sleep step)) else ret tt) s2 = (Ok tt, s3) /\
             trace s3 = trace s2 ++ t3 /\ Forall quietEvent t3).
  { destruct (sleepTruthy (sleep step)).
    - eexists. exists [EDelay (sleepMs (sleep step))].
      split; [reflexivity|]. split; [reflexivity|]. repeat constructor.
    - exists s2, []. rewrite app_nil_r. auto. }
  destruct Hs as (s3 & t3 & Hs & T3 & F3). unfold bind at 1. rewrite Hs.
  destruct (keeps_getContext E (fun _ => True) quietEvent
              (or_intror (or_introl eq_refl))
              (or_intror (or_intror eq_refl)) s3 Logic.I) as (_ & t4 & T4 & F4).
  destruct (getContext_returns E s3) as (context & s4 & Hc).
  rewrite Hc in T4. cbn [snd] in T4.
  unfold bind at 1. rewrite Hc. unfold bind at 1. cbn [push].
  exists ([EExec (toastLine (lit "Executed: " ++ p)); EDelay 1500] ++ t3 ++ t4).
  eexists. split; [reflexivity|]. split.
  - cbn [trace]. rewrite T4, T3, T2, <- !app_assoc. reflexivity.
  - apply Forall_app. split; [|apply Forall_app; split; assumption].
    constructor; [apply quiet_toast|]. constructor; [exact Logic.I|constructor].
Qed.

(** X23: the commands of the steps reach the device in the order of the
    plan.  Leaving the layout fetches aside, the device commands the step
    loop issues are the normalised actions of the steps that are not
    skipped, in the order of the plan and once each, up to the point
    where the loop stops: all of them when the loop runs to its end. *)
Theorem commands_follow_plan_order :
  forall (steps : list Step) (st : St W),
    Forall (fun c => isFetch c = false) (planCommands steps) ->
    exists t rest,
      trace (snd (runSteps E steps st)) = trace st ++ t /\
      planCommands steps = stepCommands t ++ rest /\
      (fst (runSteps E steps st) = Ok Completed -> rest = []).
Proof.
  induction steps as [|step steps IH]; intros st Hf.
  - exists [], []. rewrite app_nil_r. auto.
  - cbn [runSteps]. unfold planCommands in *. cbn [filter] in *.
    destruct (emptyAction step) eqn:He; cbn [negb andb] in *.
    + rewrite (runStep_empty E step _ He). exact (IH st Hf).
    + destruct (tapRejected (normalize (primary step))) eqn:Hr; cbn [negb andb] in *.
      * rewrite (runStep_rejected E step _ st He Hr), showToast_run. cbn [snd].
        set (s1 := setWorld _ (emit _ st)).
        destruct (IH s1 Hf) as (t & rest & T & Hp & Hc).
        exists (EExec (toastLine (lit "Skipping invalid tap command.")) :: t), rest.
        split; [|split; [|exact Hc]].
        -- rewrite T. unfold s1. cbn [setWorld emit trace].
           rewrite <- app_assoc. reflexivity.
        -- change (EExec (toastLine (lit "Skipping invalid tap command.")) :: t)
             with ([EExec (toastLine (lit "Skipping invalid tap command."))] ++ t).
           rewrite stepCommands_app, (stepCommands_quiet [_]); [exact Hp|].
           constructor; [apply quiet_toast|constructor].
      * cbn [map] in *. inversion Hf as [|? ? Hhead Htail]; subst.
        destruct (fst (exec E (adbLine (normalize (primary step))) (world st)))
          as [out|msg] eqn:Hx.
        -- destruct (runStep_succeeded_trace step (runSteps E steps) st out He Hr Hx)
             as (tmid & s' & Hrun & T' & Fq).
           destruct (IH s' Htail) as (t & rest & T & Hp & Hc).
           rewrite Hrun.
           exists (EExec (adbLine (normalize (primary step))) :: tmid ++ t), rest.
           split; [rewrite T, T', <- app_assoc; reflexivity|]. split; [|exact Hc].
           rewrite (stepCommands_command _ _ Hhead), stepCommands_app,
             (stepCommands_quiet _ Fq), Hp. reflexivity.
        -- rewrite (runStep_failed E step _ st msg He Hr Hx).
           rewrite showToast_run. cbn [fst snd setWorld emit trace issued].
           exists [EExec (adbLine (normalize (primary step)));
                   EExec (toastLine (lit "Command failed: " ++
                                     normalize (primary step)))],
                  (map (fun s => normalize (primary s))
                     (filter (fun s => negb (emptyAction s) &&
                                       negb (tapRejected (normalize (primary s))))
                        steps)).
           split; [rewrite <- app_assoc; reflexivity|]. split; [|discriminate].
           rewrite (stepCommands_command _ _ Hhead), (stepCommands_quiet [_]);
             [reflexivity|].
           constructor; [apply quiet_toast|constructor].
Qed.
End Order.

(** ** The further statements at work *)

Lemma bounds_pattern_accepts_witness :
  boundsMatch (markedBounds (lit "0") (lit "63") (lit "1080") (lit "210") ++
               lit " clickable") =
  Some (lit "0", lit "63", lit "1080", lit "210").
Proof.
  apply (proj2 bounds_pattern_accepts);
    (split; [repeat constructor|discriminate]).
Defined.

Lemma extracted_element_geometry_witness :
  let bounds := markedBounds (lit "0") (lit "63") (lit "1080") (lit "210") in
  let uiTree :=
    JObj None
      [(lit "hierarchy",
        JObj None
          [(lit "node",
            JObj (Some [(lit "class", lit "android.widget.FrameLayout")])
              [(lit "node",
                JArr [JObj (Some [(lit "text", lit "OK");
                                  (lit "bounds", bounds)]) []])])])] in
  exists attrs,
    In attrs (attrsOf uiTree) /\
    pushedBy attrs
      {| text := lit "OK"; resourceId := []; class := [];
         x := 540; y := 136; width := 1080; height := 147 |}.
Proof.
  intros bounds uiTree.
  apply (proj1 extracted_element_geometry uiTree).
  left. reflexivity.
Defined.

Lemma extractUiElements_empty_witness : extractUiElements (Some scriptedDoc) = [].
Proof.
  destruct extractUiElements_empty as (_ & _ & _ & H).
  apply (H scriptedDoc
           (JObj (Some [(lit "rotation", lit "0")])
              [(lit "node",
                JArr [JObj (Some [(lit "text", lit "OK");
                                  (lit "class", lit "android.widget.Button");
                                  (lit "bounds", lit "[0,0][1080,1920]")])
                        []])])
           [JObj (Some [(lit "text", lit "OK");
                        (lit "class", lit "android.widget.Button");
                        (lit "bounds", lit "[0,0][1080,1920]")]) []]).
  - reflexivity.
  - reflexivity.
  - repeat constructor.
Defined.

Lemma sleep_line_sets_milliseconds_witness :
  parseLines [lit "Sleep: 2"] []
    (Some {| primary := lit "shell input tap 100 200"; sleep := None |}) =
  ([], Some {| primary := lit "shell input tap 100 200";
               sleep := Some (Num 2000) |}).
Proof.
  destruct (sleep_line_sets_milliseconds (lit "2") [] []
              {| primary := lit "shell input tap 100 200"; sleep := None |})
    as (H & _).
  - repeat constructor.
  - discriminate.
  - vm_compute. discriminate.
  - exact H.
Defined.

Lemma getAllPackages_names_witness :
  fst (getAllPackages
         (answering (lit "package:com.android.settings" ++ [nl] ++
                     lit "package:org.mozilla.firefox" ++ [nl]))
         {| world := tt; trace := []; conversation := [] |}) =
  Ok (lit "com.android.settings, org.mozilla.firefox").
Proof.
  apply (getAllPackages_names
           (answering (lit "package:com.android.settings" ++ [nl] ++
                       lit "package:org.mozilla.firefox" ++ [nl]))
           [lit "com.android.settings"; lit "org.mozilla.firefox"]
           {| world := tt; trace := []; conversation := [] |}
           (lit "package:com.android.settings" ++ [nl] ++
            lit "package:org.mozilla.firefox" ++ [nl])).
  - repeat constructor; try discriminate;
      intros H; cbn in H; repeat (destruct H as [H|H]; [discriminate H|]); exact H.
  - reflexivity.
  - reflexivity.
Defined.

Lemma package_listing_failure_rejects_witness :
  fst (runAgent (scripted [adbLine (lit "shell pm list packages")]) 5
         [lit "DONE"]) =
  Throw (lit "ADB command failed: Command failed: adb shell pm list packages").
Proof.
  rewrite (package_listing_failure_rejects
             (scripted [adbLine (lit "shell pm list packages")]) 5 [lit "DONE"]
             (lit "Command failed: adb shell pm list packages") eq_refl).
  reflexivity.
Defined.

Lemma artifact_removed_when_run_ends_witness :
  existsSync (scriptedFs [])
    (world (snd (runAgent (scriptedFs []) 2 (false, [lit "DONE"])))) = false.
Proof.
  apply (artifact_removed_when_run_ends (scriptedFs []) (fun _ => eq_refl)
           2 (false, [lit "DONE"]) Done).
  - vm_compute. reflexivity.
  - discriminate.
Defined.

Lemma successful_step_settles_witness :
  exists t,
    trace (snd (runStep (scripted [])
                  {| primary := lit "shell input tap 100 200";
                     sleep := Some (Num 2000) |}
                  (ret Completed) (scriptedSt []))) =
    [EExec (adbLine (lit "shell input tap 100 200"));
     EExec (toastLine (lit "Executed: shell input tap 100 200"));
     EDelay 1500; EDelay 2000; EExec dumpLine] ++ t.
Proof.
  destruct (successful_step_settles (scripted [])
              {| primary := lit "shell input tap 100 200";
                 sleep := Some (Num 2000) |}
              (ret Completed) (scriptedSt []) [] eq_refl eq_refl eq_refl
              (growing_ret Ctl Completed)) as (t & T).
  exists t. exact T.
Defined.

Lemma other_action_passes_through_witness :
  exists t,
    trace (snd (runStep (scripted [])
                  {| primary := lit "shell input keyevent 3"; sleep := None |}
                  (ret Completed) (scriptedSt []))) =
    EExec (adbLine (lit "shell input keyevent 3")) :: t.
Proof.
  destruct (other_action_passes_through (scripted [])
              {| primary := lit "shell input keyevent 3"; sleep := None |}
              (ret Completed) (scriptedSt []) eq_refl eq_refl eq_refl eq_refl
              (growing_ret Ctl Completed)) as (_ & t & T).
  exists t. exact T.
Defined.

Lemma getScreenSize_outcome_witness :
  fst (getScreenSize
         (answering (lit "Physical size: 1080x1920" ++ [nl] ++
                     lit "Override size: 720x1280"))
         {| world := tt; trace := []; conversation := [] |}) =
  Ok (Num 1080, Num 1920).
Proof.
  destruct (getScreenSize_outcome
              (answering (lit "Physical size: 1080x1920" ++ [nl] ++
                          lit "Override size: 720x1280"))
              {| world := tt; trace := []; conversation := [] |}) as (H & _).
  apply (H (lit "Physical size: 1080x1920" ++ [nl] ++
            lit "Override size: 720x1280")
           (lit "1080") (lit "1920")
           ([nl] ++ lit "Override size: 720x1280"));
    try reflexivity; try discriminate; try (vm_compute; discriminate);
    repeat constructor.
Defined.

Lemma context_of_parsed_dump_is_empty_witness :
  fst (getContext (scripted []) (scriptedSt [])) = Ok [].
Proof.
  rewrite (context_of_parsed_dump_is_empty (scripted []) (scriptedSt [])
             (snd (fetchLayout (scripted []) (scriptedSt [])))
             scriptedDoc
             (JObj (Some [(lit "rotation", lit "0")])
                [(lit "node",
                  JArr [JObj (Some [(lit "text", lit "OK");
                                    (lit "class", lit "android.widget.Button");
                                    (lit "bounds", lit "[0,0][1080,1920]")])
                          []])])
             [JObj (Some [(lit "text", lit "OK");
                          (lit "class", lit "android.widget.Button");
                          (lit "bounds", lit "[0,0][1080,1920]")]) []]).
  - reflexivity.
  - reflexivity.
  - reflexivity.
  - reflexivity.
  - repeat constructor.
Defined.

Lemma commands_follow_plan_order_witness :
  exists t rest,
    trace (snd (runSteps (scripted [adbLine (lit "shell input keyevent 3")])
                  [{| primary := lit "adb shell input tap 1 2"; sleep := None |};
                   {| primary := []; sleep := None |};
                   {| primary := lit "shell input tap"; sleep := None |};
                   {| primary := lit "shell input keyevent 3"; sleep := None |};
                   {| primary := lit "shell input text a b"; sleep := None |}]
                  (scriptedSt []))) = [] ++ t /\
    [lit "shell input tap 1 2"; lit "shell input keyevent 3";
     lit "shell input text a%sb"] = stepCommands t ++ rest /\
    (fst (runSteps (scripted [adbLine (lit "shell input keyevent 3")])
            [{| primary := lit "adb shell input tap 1 2"; sleep := None |};
             {| primary := []; sleep := None |};
             {| primary := lit "shell input tap"; sleep := None |};
             {| primary := lit "shell input keyevent 3"; sleep := None |};
             {| primary := lit "shell input text a b"; sleep := None |}]
            (scriptedSt [])) = Ok Completed -> rest = []).
Proof.
  apply (commands_follow_plan_order
           (scripted [adbLine (lit "shell input keyevent 3")])
           [{| primary := lit "adb shell input tap 1 2"; sleep := None |};
            {| primary := []; sleep := None |};
            {| primary := lit "shell input tap"; sleep := None |};
            {| primary := lit "shell input keyevent 3"; sleep := None |};
            {| primary := lit "shell input text a b"; sleep := None |}]
           (scriptedSt [])).
  repeat (constructor; [reflexivity|]). constructor.
Defined.

(** The calls of a run of two turns: the second is given the first, the
    reply to it, the observation made after the step of that reply and
    its own observation. *)
Example scenario_planner_calls :
  let reply := lit "Command: shell input keyevent 3" in
  chatCalls
    (trace (snd (agentLoop (scripted []) 2 (scriptedSt [reply; lit "DONE"])))) =
  [ [contextMessage []];
    [contextMessage []; {| role := assistant; content := reply |};
     contextMessage []; contextMessage []] ].
Proof. vm_compute. reflexivity. Qed.
